(** * snmalloc: the pool of pooled objects ([src/mem/pool.h])

    A shallow embedding of [PoolState], [SingletonPoolState] and [Pool]:
    the objects live in a heap indexed by addresses, a [T*] is an optional
    address ([None] is [nullptr]), and every member function is a
    computation over the world it runs in.  A computation either returns,
    halts the process through the platform error channel, dereferences a
    pointer that designates no object, or spins on a lock that is held. *)

From stdpp Require Import base option list gmap strings.

(** Objects are named by their address, a [positive]; a [T*] is [ptr]. *)
Abbreviation ptr := (option positive) (only parsing).

(** ** Data model *)

Section pool.

(** [T] is a template parameter: [Body] stands for the fields [T] adds to
    its [Pooled<T>] base, [Args] for the constructor arguments that
    [acquire] forwards to the supplier. *)
Context {Body Args : Type}.

(** Modelled from the spec: [Pooled<T>], which pool.h takes from
    pooled.h -- "a long-lived instance carrying three logical attributes:
    a free-list link, a registry link, and an in-use flag".  The names
    [next] and [list_next] are the ones pool.h reads and writes. *)
Record Pooled : Type := mkPooled {
  next : ptr;
  list_next : ptr;
  in_use : bool;
  body : Body
}.

(** [PoolState<T>]: the flag lock, the stack of unused objects (an
    [MPMCStack] is represented by its top pointer) and the head of the
    list of all objects ever allocated (the member [list], written
    [list_head] here because [list] is the type of lists). *)
Record PoolState : Type := mkPoolState {
  lock : bool;
  stack : ptr;
  list_head : ptr
}.

(** What the pool does to its collaborators: calls of the memory
    supplier with their answer, the flag lock taken and dropped, and the
    fatal message handed to the platform. *)
Inductive event : Type :=
| EvAlloc (args : Args) (answer : ptr)
| EvLock
| EvUnlock
| EvError (msg : string).

Record World : Type := mkWorld {
  heap : gmap positive Pooled;
  state : PoolState;
  trace : list event
}.

(** [constexpr PoolState() = default]: lock clear, stack empty,
    [list{nullptr}]; nothing allocated, nothing observed. *)
Definition init : World :=
  mkWorld ∅ (mkPoolState false None None) [].

Inductive result (A : Type) : Type :=
| Ret (a : A) (w : World)
| Halt (w : World)
| Fault
| Spin.
Global Arguments Ret {A} a w.
Global Arguments Halt {A} w.
Global Arguments Fault {A}.
Global Arguments Spin {A}.

Definition M (A : Type) : Type := World → result A.

Definition ret {A} (a : A) : M A := fun w => Ret a w.

Definition bind {A B} (k : A → M B) (m : M A) : M B :=
  fun w =>
    match m w with
    | Ret a w' => k a w'
    | Halt w' => Halt w'
    | Fault => Fault
    | Spin => Spin
    end.

#[export] Instance M_ret : MRet M := @ret.
#[export] Instance M_bind : MBind M := @bind.

(** *** Primitive accesses *)

Definition with_heap (h : gmap positive Pooled) (w : World) : World :=
  mkWorld h (state w) (trace w).
Definition with_state (s : PoolState) (w : World) : World :=
  mkWorld (heap w) s (trace w).

(** [*p] for reading: a fault on [nullptr] and on an address that holds
    no object. *)
Definition load (p : ptr) : M Pooled :=
  fun w =>
    match p with
    | Some l =>
        match heap w !! l with
        | Some o => Ret o w
        | None => Fault
        end
    | None => Fault
    end.

(** [p->field = v], as an update of the object at [p]. *)
Definition modify (p : ptr) (f : Pooled → Pooled) : M unit :=
  fun w =>
    match p with
    | Some l =>
        match heap w !! l with
        | Some o => Ret () (with_heap (<[l := f o]> (heap w)) w)
        | None => Fault
        end
    | None => Fault
    end.

Definition set_next (v : ptr) (o : Pooled) : Pooled :=
  mkPooled v (list_next o) (in_use o) (body o).
Definition set_list_next (v : ptr) (o : Pooled) : Pooled :=
  mkPooled (next o) v (in_use o) (body o).
Definition set_flag (v : bool) (o : Pooled) : Pooled :=
  mkPooled (next o) (list_next o) v (body o).

Definition get_stack : M ptr := fun w => Ret (stack (state w)) w.
Definition put_stack (v : ptr) : M unit :=
  fun w => Ret () (with_state (mkPoolState (lock (state w)) v (list_head (state w))) w).
Definition get_list : M ptr := fun w => Ret (list_head (state w)) w.
Definition put_list (v : ptr) : M unit :=
  fun w => Ret () (with_state (mkPoolState (lock (state w)) (stack (state w)) v) w).

(** *** Collaborators of pool.h *)

(** Modelled from the spec: [Pooled::set_in_use] and
    [Pooled::reset_in_use] of pooled.h -- "set the in-use flag", "clear
    the in-use flag". *)
Definition set_in_use (p : ptr) : M unit := modify p (set_flag true).
Definition reset_in_use (p : ptr) : M unit := modify p (set_flag false).

(** Modelled from the spec: [MPMCStack] of ds/mpmcstack.h, a linked
    stack threaded through the free-list link [next] (the field
    [extract] walks).  "push(first,last) -- splice an existing chain of
    objects in as a single atomic batch": the chain's last link is
    pointed at the old top and the top becomes [first]. *)
Definition push_chain (first last : ptr) : M unit :=
  top ← get_stack;
  modify last (set_next top);;
  put_stack first.

(** Modelled from the spec: "push(node) -- insert one object". *)
Definition push (item : ptr) : M unit := push_chain item item.

(** Modelled from the spec: "pop() -- remove and return the most
    recently accessible object, or a null result if empty". *)
Definition pop : M ptr :=
  top ← get_stack;
  match top with
  | None => ret None
  | Some _ =>
      o ← load top;
      put_stack (next o);;
      ret top
  end.

(** Modelled from the spec: "pop_all() -- atomically detach and return
    the entire chain, leaving the free-list empty". *)
Definition pop_all : M ptr :=
  top ← get_stack;
  put_stack None;;
  ret top.

(** Modelled from the spec: [FlagLock] of ds/flaglock.h -- "scoped
    acquisition", "blocks by retrying until acquired".  Run on its own,
    a thread that finds the flag set retries for ever. *)
Definition flag_lock : M unit :=
  fun w =>
    if lock (state w) then Spin
    else Ret () (mkWorld (heap w)
                   (mkPoolState true (stack (state w)) (list_head (state w)))
                   (trace w ++ [EvLock])).
Definition flag_unlock : M unit :=
  fun w =>
    Ret () (mkWorld (heap w)
              (mkPoolState false (stack (state w)) (list_head (state w)))
              (trace w ++ [EvUnlock])).

(** Modelled from the spec: [Pal::error] -- "one operation: report a
    fatal message and halt". *)
Definition Pal_error {A} (msg : string) : M A :=
  fun w => Halt (mkWorld (heap w) (state w) (trace w ++ [EvError msg])).

(** The memory supplier, [ChunkAllocator::alloc_meta_data] of
    slaballocator.h: "given constructor arguments, returns freshly backed
    memory for a new pooled object, or fails".  Its answer is a parameter
    of the model: the address and the constructed [T], or nothing. *)
Variable supplier : Args → gmap positive Pooled → option (positive * Body).

(** Modelled from the spec: the call of the supplier.  A new object
    starts with its free-list link null and its flag clear; [acquire]
    assigns [list_next] before anything reads it. *)
Definition alloc_meta_data (args : Args) : M ptr :=
  fun w =>
    match supplier args (heap w) with
    | Some (l, b) =>
        Ret (Some l)
          (mkWorld (<[l := mkPooled None None false b]> (heap w)) (state w)
             (trace w ++ [EvAlloc args (Some l)]))
    | None =>
        Ret None (mkWorld (heap w) (state w) (trace w ++ [EvAlloc args None]))
    end.

(** ** [Pool]: the operation surface

    [Pool] is parameterised by the accessor [get_state]; the [PoolState]
    it returns is the [state] of the world the call runs in. *)

Definition acquire (args : Args) : M ptr :=
  p ← pop;
  match p with
  | Some _ =>
      set_in_use p;;
      ret p
  | None =>
      p ← alloc_meta_data args;
      (match p with
       | None => Pal_error "Failed to initialise thread local allocator."
       | Some _ => ret ()
       end);;
      flag_lock;;
      l ← get_list;
      modify p (set_list_next l);;
      put_list p;;
      set_in_use p;;
      flag_unlock;;
      ret p
  end.

Definition release (p : ptr) : M unit :=
  reset_in_use p;;
  push p.

Definition extract (p : ptr) : M ptr :=
  match p with
  | None => pop_all
  | Some _ => o ← load p; ret (next o)
  end.

Definition restore (first last : ptr) : M unit :=
  push_chain first last.

Definition iterate (p : ptr) : M ptr :=
  match p with
  | None => get_list
  | Some _ => o ← load p; ret (list_next o)
  end.

(** ** Calls, runs and walks *)

(** One call of the operation surface; [void] results are reported as
    [None]. *)
Inductive call : Type :=
| Acquire (args : Args)
| Release (p : ptr)
| Extract (p : ptr)
| Restore (first last : ptr)
| Iterate (p : ptr).

Definition exec (c : call) : M ptr :=
  match c with
  | Acquire args => acquire args
  | Release p => release p;; ret None
  | Extract p => extract p
  | Restore first last => restore first last;; ret None
  | Iterate p => iterate p
  end.

(** The calls of a program, one after the other. *)
Fixpoint run (cs : list call) : M (list ptr) :=
  match cs with
  | [] => ret []
  | c :: cs' =>
      v ← exec c;
      vs ← run cs';
      ret (v :: vs)
  end.

(** The states a single thread can bring the pool into, starting from the
    statically initialised one, by calls that return. *)
Inductive reachable : World → Prop :=
| reachable_init : reachable init
| reachable_step w c v w' :
    reachable w → exec c w = Ret v w' → reachable w'.

(** The loop [for (p = succ(p0); p != nullptr; p = succ(p))] that a caller
    writes over [iterate] or [extract]: the objects visited, or nothing
    when the walk faults or is not over after [fuel] objects. *)
Fixpoint follow (succ : ptr → M ptr) (fuel : nat) (p : ptr) (w : World)
  : option (list positive) :=
  match p with
  | None => Some []
  | Some l =>
      match fuel with
      | O => None
      | S n =>
          match succ p w with
          | Ret q _ => cons l <$> follow succ n q w
          | _ => None
          end
      end
  end.

(** A full traversal of the registry: [iterate(nullptr)], then [iterate]
    of each result until [nullptr]. *)
Definition registry (w : World) : option (list positive) :=
  match iterate None w with
  | Ret p _ => follow iterate (size (heap w)) p w
  | _ => None
  end.

(** The objects on the stack of unused objects, from the top, as
    [extract(p)] walks them. *)
Definition free_list (w : World) : option (list positive) :=
  follow extract (size (heap w)) (stack (state w)) w.

(** The objects the supplier has handed out, oldest first. *)
Fixpoint constructed (tr : list event) : list positive :=
  match tr with
  | [] => []
  | EvAlloc _ (Some l) :: tr' => l :: constructed tr'
  | _ :: tr' => constructed tr'
  end.

(** [chain field h p ls]: following [field] from [p] through the heap [h]
    visits exactly [ls] and ends on [nullptr]. *)
Inductive chain (field : Pooled → ptr) (h : gmap positive Pooled)
  : ptr → list positive → Prop :=
| chain_nil : chain field h None []
| chain_cons l o ls :
    h !! l = Some o → chain field h (field o) ls →
    chain field h (Some l) (l :: ls).

(** The objects from [first] up to and including [last] along the
    free-list link: the chain a caller of [restore] hands back. *)
Fixpoint segment (fuel : nat) (h : gmap positive Pooled) (first last : positive)
  : option (list positive) :=
  match fuel with
  | O => None
  | S n =>
      if decide (first = last) then Some [first]
      else
        match h !! first with
        | Some o =>
            match next o with
            | Some q => cons first <$> segment n h q last
            | None => None
            end
        | None => None
        end
  end.

(** What the caller holds: the objects [acquire] returned to it and it has
    not released, and the objects it detached with [extract(nullptr)] and
    has not restored. *)
Record Client : Type := mkClient {
  held : gset positive;
  claimed : gset positive
}.

(** The states reached by a caller that keeps to the contract pool.h
    words: [release] is for "an object previously retrieved by [acquire]",
    [restore] for "a list of object previously retrieved by [extract]",
    and neither for the other's objects. *)
Inductive protocol : Client → World → Prop :=
| protocol_init : protocol (mkClient ∅ ∅) init
| protocol_acquire c w args l w' :
    protocol c w → acquire args w = Ret (Some l) w' →
    protocol (mkClient ({[l]} ∪ held c) (claimed c)) w'
| protocol_release c w l w' :
    protocol c w → l ∈ held c → release (Some l) w = Ret () w' →
    protocol (mkClient (held c ∖ {[l]}) (claimed c)) w'
| protocol_extract_all c w p w' :
    protocol c w → extract None w = Ret p w' →
    protocol
      (mkClient (held c) (claimed c ∪ list_to_set (default [] (free_list w))))
      w'
| protocol_extract_next c w l q w' :
    protocol c w → l ∈ claimed c → extract (Some l) w = Ret q w' →
    protocol c w'
| protocol_restore c w first last path w' :
    protocol c w →
    segment (size (heap w)) (heap w) first last = Some path →
    (∀ l, l ∈ path → l ∈ claimed c) →
    restore (Some first) (Some last) w = Ret () w' →
    protocol (mkClient (held c) (claimed c ∖ list_to_set path)) w'
| protocol_iterate c w p q w' :
    protocol c w → iterate p w = Ret q w' → protocol c w'.

(** One call of a caller who keeps a record of what it holds: the call is
    made only when the contract allows it, and the record is updated with
    its result. *)
Definition play_step (c : call) (s : Client * World) : option (Client * World) :=
  let '(cl, w) := s in
  match c with
  | Acquire args =>
      match acquire args w with
      | Ret (Some l) w' => Some (mkClient ({[l]} ∪ held cl) (claimed cl), w')
      | _ => None
      end
  | Release (Some l) =>
      if decide (l ∈ held cl) then
        match release (Some l) w with
        | Ret _ w' => Some (mkClient (held cl ∖ {[l]}) (claimed cl), w')
        | _ => None
        end
      else None
  | Extract None =>
      match extract None w with
      | Ret _ w' =>
          Some (mkClient (held cl)
                  (claimed cl ∪ list_to_set (default [] (free_list w))), w')
      | _ => None
      end
  | Extract (Some l) =>
      if decide (l ∈ claimed cl) then
        match extract (Some l) w with
        | Ret _ w' => Some (cl, w')
        | _ => None
        end
      else None
  | Restore (Some first) (Some last) =>
      match segment (size (heap w)) (heap w) first last with
      | Some path =>
          if decide (Forall (λ l, l ∈ claimed cl) path) then
            match restore (Some first) (Some last) w with
            | Ret _ w' =>
                Some (mkClient (held cl) (claimed cl ∖ list_to_set path), w')
            | _ => None
            end
          else None
      | None => None
      end
  | Iterate p =>
      match iterate p w with
      | Ret _ w' => Some (cl, w')
      | _ => None
      end
  | _ => None
  end.

Fixpoint play (cs : list call) (s : Client * World) : option (Client * World) :=
  match cs with
  | [] => Some s
  | c :: cs' =>
      match play_step c s with
      | Some s' => play cs' s'
      | None => None
      end
  end.

(** ** Invariants and readings of the claims *)

(** The paths on which a call returns, with the world it returns in. *)
Inductive effect (w : World) : call → ptr → World → Prop :=
| effect_acquire_hit args l o :
    stack (state w) = Some l → heap w !! l = Some o →
    effect w (Acquire args) (Some l)
      (mkWorld (<[l := set_flag true o]> (heap w))
         (mkPoolState (lock (state w)) (next o) (list_head (state w)))
         (trace w))
| effect_acquire_miss args l b :
    stack (state w) = None → supplier args (heap w) = Some (l, b) →
    lock (state w) = false →
    effect w (Acquire args) (Some l)
      (mkWorld (<[l := mkPooled None (list_head (state w)) true b]> (heap w))
         (mkPoolState false None (Some l))
         (trace w ++ [EvAlloc args (Some l); EvLock; EvUnlock]))
| effect_release l o :
    heap w !! l = Some o →
    effect w (Release (Some l)) None
      (mkWorld
         (<[l := mkPooled (stack (state w)) (list_next o) false (body o)]> (heap w))
         (mkPoolState (lock (state w)) (Some l) (list_head (state w)))
         (trace w))
| effect_extract_null :
    effect w (Extract None) (stack (state w))
      (mkWorld (heap w)
         (mkPoolState (lock (state w)) None (list_head (state w))) (trace w))
| effect_extract_walk l o :
    heap w !! l = Some o → effect w (Extract (Some l)) (next o) w
| effect_restore first l o :
    heap w !! l = Some o →
    effect w (Restore first (Some l)) None
      (mkWorld (<[l := set_next (stack (state w)) o]> (heap w))
         (mkPoolState (lock (state w)) first (list_head (state w)))
         (trace w))
| effect_iterate_null :
    effect w (Iterate None) (list_head (state w)) w
| effect_iterate_walk l o :
    heap w !! l = Some o → effect w (Iterate (Some l)) (list_next o) w.

(** What holds of the registry between calls: [list_next] leads from
    [list] through the constructed objects, newest first; no object was
    constructed twice; the constructed objects are the live ones; the lock
    is free. *)
Record registry_inv (w : World) : Prop := mk_registry_inv {
  reg_chain :
    chain list_next (heap w) (list_head (state w))
      (reverse (constructed (trace w)));
  reg_nodup : NoDup (constructed (trace w));
  reg_live : ∀ l, l ∈ constructed (trace w) ↔ is_Some (heap w !! l);
  reg_unlocked : lock (state w) = false
}.

(** What holds between the calls of a caller that keeps to the contract:
    [next] leads from the stack top through [ls]; the held objects are the
    ones whose flag is set; every object is held, claimed or on the
    stack, and only one of the three. *)
Record protocol_inv (c : Client) (w : World) (ls : list positive) : Prop :=
  mk_protocol_inv {
  inv_chain : chain next (heap w) (stack (state w)) ls;
  inv_held : ∀ l o, heap w !! l = Some o → (l ∈ held c ↔ in_use o = true);
  inv_live : ∀ l, is_Some (heap w !! l) ↔ l ∈ held c ∨ l ∈ claimed c ∨ l ∈ ls;
  inv_free : ∀ l, l ∈ ls → ¬ l ∈ held c ∧ ¬ l ∈ claimed c;
  inv_disjoint : ∀ l, l ∈ held c → l ∉ claimed c
}.

(** The registry read as insertion-ordered: a traversal visits the objects
    in the order they were constructed in, starting with [iterate(nullptr)]
    on the first object ever constructed. *)
Definition insertion_ordered : Prop :=
  ∀ w, reachable w →
    iterate None w = Ret (head (constructed (trace w))) w ∧
    registry w = Some (constructed (trace w)).

(** The round trip read as keeping every field but the flag: after
    [release(x)] and [acquire] on an otherwise empty stack, [x] is
    returned with its free-list link, [list_next] and body as before. *)
Definition round_trip_keeps_fields : Prop :=
  ∀ w, reachable w →
  ∀ x o args w1 p w2,
    heap w !! x = Some o → in_use o = true → stack (state w) = None →
    release (Some x) w = Ret () w1 → acquire args w1 = Ret p w2 →
    p = Some x ∧
    ∃ o', heap w2 !! x = Some o' ∧
      next o' = next o ∧ list_next o' = list_next o ∧ body o' = body o.

(** [restore] read as writing no field: every object of the chain handed
    back is as it was. *)
Definition restore_writes_no_field : Prop :=
  ∀ cl w first lst path w',
    protocol cl w →
    segment (size (heap w)) (heap w) first lst = Some path →
    (∀ l, l ∈ path → l ∈ claimed cl) →
    restore (Some first) (Some lst) w = Ret () w' →
    ∀ l, l ∈ path → heap w' !! l = heap w !! l.

(** What [acquire] leaves in the trace for the objects it constructs: for
    each one the call of the supplier, then the lock taken and dropped. *)
Fixpoint constructions (xs : list (Args * positive)) : list event :=
  match xs with
  | [] => []
  | (args, l) :: xs' =>
      EvAlloc args (Some l) :: EvLock :: EvUnlock :: constructions xs'
  end.

End pool.

Global Arguments Pooled : clear implicits.
Global Arguments World : clear implicits.
Global Arguments event : clear implicits.
Global Arguments call : clear implicits.
Global Arguments result : clear implicits.
Global Arguments M : clear implicits.

(** ** [SingletonPoolState]: the lazy singleton gate

    [pool()] is the default [get_state] of [Pool].  The operations above
    act on the [PoolState] of the world they run in; what the gate does
    before it hands that state out is modelled here, with threads as
    numbers and one call of [pool()] as one step. *)

Section singleton.

(** [Shared] is whatever [SharedStateHandle::ensure_init] acts on.  The
    handle declares the hook or not: with [Some f] the first overload of
    [call_ensure_init] is chosen and calls it, with [None] the second one
    is and does nothing. *)
Context {Shared : Type}.
Variable handle_ensure_init : option (Shared → Shared).

(** What a [PoolState<T>&] can designate: the static member [state] of
    this instantiation of [SingletonPoolState], or a pool state someone
    else owns (a caller may give [Pool] another accessor). *)
Inductive pool_ref : Type :=
| StaticState
| OtherState (n : nat).

(** The gate's variables: the threads whose [thread_local] marker
    [initialized] is set, the state the hook acts on, and the threads that
    ran the hook, oldest first. *)
Record Gate : Type := mkGate {
  initialized : gset nat;
  shared : Shared;
  hooks : list nat
}.

(** Static initialisation: no thread's marker is set. *)
Definition gate_init (s0 : Shared) : Gate := mkGate ∅ s0 [].

(** The two overloads of [call_ensure_init], of which the handle leaves
    one. *)
Definition call_ensure_init (t : nat) (g : Gate) : Gate :=
  match handle_ensure_init with
  | Some f => mkGate (initialized g) (f (shared g)) (hooks g ++ [t])
  | None => g
  end.

Definition ensure_init (t : nat) (g : Gate) : Gate := call_ensure_init t g.

(** [pool()] as called by thread [t]. *)
Definition pool (t : nat) (g : Gate) : pool_ref * Gate :=
  if decide (t ∈ initialized g) then (StaticState, g)
  else
    let g' := ensure_init t g in
    (StaticState, mkGate ({[t]} ∪ initialized g') (shared g') (hooks g')).

(** The calls of [pool()] by the threads [ts], in this order. *)
Fixpoint pool_calls (ts : list nat) (g : Gate) : list pool_ref * Gate :=
  match ts with
  | [] => ([], g)
  | t :: ts' =>
      let '(r, g1) := pool t g in
      let '(rs, g2) := pool_calls ts' g1 in
      (r :: rs, g2)
  end.

Inductive gate_reachable (s0 : Shared) : Gate → Prop :=
| gate_reachable_init : gate_reachable s0 (gate_init s0)
| gate_reachable_pool g t r g' :
    gate_reachable s0 g → pool t g = (r, g') → gate_reachable s0 g'.

End singleton.

Global Arguments Gate : clear implicits.

(** ** A pool of counters

    A concrete pooled type for experiments: the body is a number, the
    constructor argument is its initial value, and the supplier hands out
    the least unused address until [cap] objects exist. *)
Module Demo.

Definition supplier (cap : nat) (args : nat) (h : gmap positive (Pooled nat))
  : option (positive * nat) :=
  if decide (size h < cap) then Some (fresh (dom h), args) else None.

Definition after (cap : nat) (cs : list (call nat)) : World nat nat :=
  match run (supplier cap) cs init with
  | Ret _ w => w
  | _ => init
  end.

Definition played (cap : nat) (cs : list (call nat)) : Client * World nat nat :=
  default (mkClient ∅ ∅, init) (play (supplier cap) cs (mkClient ∅ ∅, init)).

End Demo.

(** ** What each call does, as one equation per path *)

Section pool_facts.

Context {Body Args : Type}.
Variable supplier : Args → gmap positive (Pooled Body) → option (positive * Body).

Implicit Types (w : World Body Args) (h : gmap positive (Pooled Body)).
Implicit Types (o : Pooled Body) (l : positive) (p q : ptr).

Ltac unfold_m :=
  unfold acquire, release, extract, restore, iterate, push, push_chain, pop,
    pop_all, set_in_use, reset_in_use, alloc_meta_data, Pal_error, flag_lock,
    flag_unlock, get_stack, put_stack, get_list, put_list, modify, load,
    with_heap, with_state, mbind, M_bind, bind, ret;
  simpl.

Lemma acquire_hit args w l o :
  stack (state w) = Some l → heap w !! l = Some o →
  acquire supplier args w =
    Ret (Some l)
      (mkWorld (<[l := set_flag true o]> (heap w))
         (mkPoolState (lock (state w)) (next o) (list_head (state w)))
         (trace w)).
Proof.
  destruct w as [h [lk st li] tr]; simpl; intros -> Hl.
  unfold_m. rewrite Hl. simpl. by rewrite Hl.
Qed.

Lemma acquire_dangling args w l :
  stack (state w) = Some l → heap w !! l = None →
  acquire supplier args w = Fault.
Proof.
  destruct w as [h [lk st li] tr]; simpl; intros -> Hl.
  unfold_m. by rewrite Hl.
Qed.

Lemma acquire_miss args w l b :
  stack (state w) = None → supplier args (heap w) = Some (l, b) →
  lock (state w) = false →
  acquire supplier args w =
    Ret (Some l)
      (mkWorld (<[l := mkPooled None (list_head (state w)) true b]> (heap w))
         (mkPoolState false None (Some l))
         (trace w ++ [EvAlloc args (Some l); EvLock; EvUnlock])).
Proof.
  destruct w as [h [lk st li] tr]; simpl; intros -> Hs ->.
  unfold_m. rewrite Hs. simpl.
  repeat (rewrite ?lookup_insert_eq, ?insert_insert_eq; simpl).
  by rewrite <- !(assoc_L (++)).
Qed.

Lemma acquire_spin args w l b :
  stack (state w) = None → supplier args (heap w) = Some (l, b) →
  lock (state w) = true →
  acquire supplier args w = Spin.
Proof.
  destruct w as [h [lk st li] tr]; simpl; intros -> Hs ->.
  unfold_m. by rewrite Hs.
Qed.

Lemma acquire_fail args w :
  stack (state w) = None → supplier args (heap w) = None →
  acquire supplier args w =
    Halt (mkWorld (heap w) (state w)
            (trace w ++ [EvAlloc args None;
                         EvError "Failed to initialise thread local allocator."])).
Proof.
  destruct w as [h [lk st li] tr]; simpl; intros -> Hs.
  unfold_m. rewrite Hs. simpl. by rewrite <- (assoc_L (++)).
Qed.

Lemma release_live w l o :
  heap w !! l = Some o →
  release (Some l) w =
    Ret ()
      (mkWorld
         (<[l := mkPooled (stack (state w)) (list_next o) false (body o)]> (heap w))
         (mkPoolState (lock (state w)) (Some l) (list_head (state w)))
         (trace w)).
Proof.
  destruct w as [h [lk st li] tr]; simpl; intros Hl.
  unfold_m. rewrite Hl. simpl. rewrite lookup_insert_eq. simpl.
  by rewrite insert_insert_eq.
Qed.

Lemma release_dead w p :
  (∀ l, p = Some l → heap w !! l = None) → release p w = Fault.
Proof.
  intros Hp. unfold_m. destruct p as [l|]; [|done].
  by rewrite (Hp l eq_refl).
Qed.

Lemma restore_live w first l o :
  heap w !! l = Some o →
  restore first (Some l) w =
    Ret ()
      (mkWorld (<[l := set_next (stack (state w)) o]> (heap w))
         (mkPoolState (lock (state w)) first (list_head (state w)))
         (trace w)).
Proof.
  destruct w as [h [lk st li] tr]; simpl; intros Hl.
  unfold_m. by rewrite Hl.
Qed.

Lemma restore_dead w first p :
  (∀ l, p = Some l → heap w !! l = None) → restore first p w = Fault.
Proof.
  intros Hp. unfold_m. destruct p as [l|]; [|done].
  by rewrite (Hp l eq_refl).
Qed.

Lemma extract_null w :
  extract None w =
    Ret (stack (state w))
      (mkWorld (heap w)
         (mkPoolState (lock (state w)) None (list_head (state w))) (trace w)).
Proof. done. Qed.

Lemma extract_live w l o :
  heap w !! l = Some o → extract (Some l) w = Ret (next o) w.
Proof. intros Hl. unfold_m. by rewrite Hl. Qed.

Lemma extract_dead w l :
  heap w !! l = None → extract (Some l) w = Fault.
Proof. intros Hl. unfold_m. by rewrite Hl. Qed.

Lemma iterate_null w : iterate None w = Ret (list_head (state w)) w.
Proof. done. Qed.

Lemma iterate_live w l o :
  heap w !! l = Some o → iterate (Some l) w = Ret (list_next o) w.
Proof. intros Hl. unfold_m. by rewrite Hl. Qed.

Lemma iterate_dead w l :
  heap w !! l = None → iterate (Some l) w = Fault.
Proof. intros Hl. unfold_m. by rewrite Hl. Qed.

Lemma exec_effect w c v w' :
  exec supplier c w = Ret v w' → effect supplier w c v w'.
Proof.
  destruct c as [args|p|p|first last|p]; simpl.
  - destruct (stack (state w)) as [l|] eqn:Hst.
    + destruct (heap w !! l) as [o|] eqn:Hl.
      * rewrite (acquire_hit _ _ _ _ Hst Hl). intros [= <- <-]. by constructor.
      * by rewrite (acquire_dangling _ _ _ Hst Hl).
    + destruct (supplier args (heap w)) as [[l b]|] eqn:Hs.
      * destruct (lock (state w)) eqn:Hlk.
        -- by rewrite (acquire_spin _ _ _ _ Hst Hs Hlk).
        -- rewrite (acquire_miss _ _ _ _ Hst Hs Hlk). intros [= <- <-].
           by constructor.
      * by rewrite (acquire_fail _ _ Hst Hs).
  - unfold mbind, M_bind, bind.
    destruct p as [l|]; [destruct (heap w !! l) as [o|] eqn:Hl|].
    + rewrite (release_live _ _ _ Hl). intros [= <- <-]. by constructor.
    + rewrite release_dead; [done|]. by intros ? [= <-].
    + by rewrite release_dead.
  - destruct p as [l|]; [destruct (heap w !! l) as [o|] eqn:Hl|].
    + rewrite (extract_live _ _ _ Hl). intros [= <- <-]. by constructor.
    + by rewrite (extract_dead _ _ Hl).
    + rewrite extract_null. intros [= <- <-]. constructor.
  - unfold mbind, M_bind, bind.
    destruct last as [l|]; [destruct (heap w !! l) as [o|] eqn:Hl|].
    + rewrite (restore_live _ _ _ _ Hl). intros [= <- <-]. by constructor.
    + rewrite restore_dead; [done|]. by intros ? [= <-].
    + by rewrite restore_dead.
  - destruct p as [l|]; [destruct (heap w !! l) as [o|] eqn:Hl|].
    + rewrite (iterate_live _ _ _ Hl). intros [= <- <-]. by constructor.
    + by rewrite (iterate_dead _ _ Hl).
    + rewrite iterate_null. intros [= <- <-]. constructor.
Qed.

Lemma effect_exec w c v w' :
  effect supplier w c v w' → exec supplier c w = Ret v w'.
Proof.
  destruct 1 as [args l o Hst Hl|args l b Hst Hs Hlk|l o Hl| |l o Hl
                 |first l o Hl| |l o Hl]; cbn [exec]; unfold mbind, M_bind, bind.
  - by rewrite (acquire_hit _ _ _ _ Hst Hl).
  - by rewrite (acquire_miss _ _ _ _ Hst Hs Hlk).
  - by rewrite (release_live _ _ _ Hl).
  - done.
  - by rewrite (extract_live _ _ _ Hl).
  - by rewrite (restore_live _ _ _ _ Hl).
  - done.
  - by rewrite (iterate_live _ _ _ Hl).
Qed.

Lemma run_reachable cs vs w' :
  run supplier cs init = Ret vs w' → reachable supplier w'.
Proof.
  assert (∀ w, reachable supplier w → ∀ vs w',
            run supplier cs w = Ret vs w' → reachable supplier w') as Hgen.
  { induction cs as [|c cs IH]; simpl; intros w Hw vs0 w0.
    - by intros [= _ <-].
    - unfold mbind, M_bind, bind.
      destruct (exec supplier c w) as [v w1| | |] eqn:Hc; try done.
      destruct (run supplier cs w1) as [vs1 w2| | |] eqn:Hr; try done.
      intros [= _ <-]. eapply IH; [|done]. by econstructor. }
  by apply Hgen, reachable_init.
Qed.

End pool_facts.

(** ** Linked chains in the heap *)

Section chains.

Context {Body Args : Type}.

Implicit Types (w : World Body Args) (h : gmap positive (Pooled Body)).
Implicit Types (o : Pooled Body) (l : positive) (p q : ptr).
Implicit Types (ls : list positive) (field : Pooled Body → ptr).

Lemma chain_live field h p ls l :
  chain field h p ls → l ∈ ls → is_Some (h !! l).
Proof.
  induction 1 as [|l' o ls Hl _ IH]; intros Hin.
  - by apply elem_of_nil in Hin.
  - apply elem_of_cons in Hin as [->|Hin]; eauto.
Qed.

Lemma chain_functional field h p ls ls' :
  chain field h p ls → chain field h p ls' → ls = ls'.
Proof.
  intros Hc; revert ls'.
  induction Hc as [|l o ls Hl _ IH]; intros ls' Hc'; inversion Hc'; subst.
  - done.
  - f_equal. apply IH. congruence.
Qed.

(** Writing an object that is not on the chain leaves the chain alone. *)
Lemma chain_insert_off field h p ls l o :
  chain field h p ls → l ∉ ls → chain field (<[l := o]> h) p ls.
Proof.
  induction 1 as [|l' o' ls Hl _ IH]; intros Hnin; [constructor|].
  apply not_elem_of_cons in Hnin as [Hne Hnin].
  econstructor; [by rewrite lookup_insert_ne|by apply IH].
Qed.

(** Writing an object without changing its link leaves the chain alone. *)
Lemma chain_insert_same field h p ls l o o' :
  chain field h p ls → h !! l = Some o → field o' = field o →
  chain field (<[l := o']> h) p ls.
Proof.
  intros Hc Hl Hf. induction Hc as [|l' o'' ls Hl' _ IH]; [constructor|].
  destruct (decide (l = l')) as [->|Hne].
  - econstructor; [by rewrite lookup_insert_eq|].
    rewrite Hf. by replace o with o'' by congruence.
  - econstructor; [by rewrite lookup_insert_ne|done].
Qed.

Lemma chain_head field h p ls : chain field h p ls → p = head ls.
Proof. by destruct 1. Qed.

Lemma chain_app_inv field h p ls1 l ls2 :
  chain field h p (ls1 ++ l :: ls2) →
  ∃ o, h !! l = Some o ∧ chain field h (field o) ls2.
Proof.
  revert p. induction ls1 as [|l1 ls1 IH]; simpl; intros p Hc; inversion Hc; subst; eauto.
Qed.

(** A duplicate-free list of live addresses is no longer than the heap is
    large. *)
Lemma live_length h ls :
  NoDup ls → (∀ l, l ∈ ls → is_Some (h !! l)) → length ls ≤ size h.
Proof.
  intros Hnd Hlive.
  rewrite <- (size_dom (D := gset positive)).
  unfold size, set_size; simpl.
  apply submseteq_length, NoDup_submseteq; [done|].
  intros l Hl. apply elem_of_elements, elem_of_dom. auto.
Qed.

(** A walk by a reader of [field] that has enough fuel visits the chain. *)
Lemma follow_chain field (succ : ptr → M Body Args ptr) w p ls fuel :
  (∀ l o, heap w !! l = Some o → succ (Some l) w = Ret (field o) w) →
  chain field (heap w) p ls → length ls ≤ fuel →
  follow succ fuel p w = Some ls.
Proof.
  intros Hsucc Hc. revert fuel.
  induction Hc as [|l o ls Hl _ IH]; intros fuel Hfuel;
    [by destruct fuel|].
  destruct fuel as [|fuel]; simpl in *; [lia|].
  rewrite (Hsucc _ _ Hl), IH; [done|lia].
Qed.

(** A chain ends, so it meets no object twice. *)
Lemma chain_NoDup field h p ls : chain field h p ls → NoDup ls.
Proof.
  induction 1 as [|l o ls Hl Hc IH]; [constructor|].
  apply NoDup_cons. split; [|done].
  intros (ls1 & ls2 & Heq)%list_elem_of_split.
  pose proof Hc as Hc'. rewrite Heq in Hc'.
  apply chain_app_inv in Hc' as (o' & Hl' & Hc').
  replace o' with o in Hc' by congruence.
  pose proof (chain_functional _ _ _ _ _ Hc Hc') as Hlen.
  apply (f_equal length) in Hlen. rewrite Heq in Hlen.
  rewrite length_app in Hlen. simpl in Hlen. lia.
Qed.

(** A walk that ends has walked a chain. *)
Lemma follow_chain_inv field (succ : ptr → M Body Args ptr) w fuel :
  (∀ l o, heap w !! l = Some o → succ (Some l) w = Ret (field o) w) →
  (∀ l, heap w !! l = None → succ (Some l) w = Fault) →
  ∀ p ls, follow succ fuel p w = Some ls → chain field (heap w) p ls.
Proof.
  intros Hlive Hdead.
  induction fuel as [|fuel IH]; intros [l|] ls; simpl; try done;
    try (intros [= <-]; constructor).
  destruct (heap w !! l) as [o|] eqn:Hl.
  - rewrite (Hlive _ _ Hl).
    destruct (follow succ fuel (field o) w) as [ls'|] eqn:Hf; simpl; [|done].
    intros [= <-]. econstructor; eauto.
  - by rewrite (Hdead _ Hl).
Qed.

(** Two walks agree when every step of theirs does. *)
Lemma follow_ext (succ : ptr → M Body Args ptr) w w' fuel :
  (∀ l, match succ (Some l) w, succ (Some l) w' with
        | Ret q _, Ret q' _ => q = q'
        | Ret _ _, _ | _, Ret _ _ => False
        | _, _ => True
        end) →
  ∀ p, follow succ fuel p w = follow succ fuel p w'.
Proof.
  intros Hstep. induction fuel as [|fuel IH]; intros [l|]; simpl; try done.
  specialize (Hstep l).
  destruct (succ (Some l) w), (succ (Some l) w'); try done.
  subst. by rewrite IH.
Qed.

Lemma segment_suffix h last fuel : ∀ first path ls1 l ls2,
  segment fuel h first last = Some path → path = ls1 ++ l :: ls2 → l ≠ last →
  ∃ o l' fuel', h !! l = Some o ∧ next o = Some l' ∧
    segment fuel' h l' last = Some ls2.
Proof.
  induction fuel as [|fuel IH]; intros first path ls1 l ls2; simpl; [done|].
  case_decide as Hfl.
  - intros [= <-] Heq Hne. destruct ls1 as [|? [|]]; simplify_eq/=.
  - destruct (h !! first) as [o|] eqn:Hfirst; [|done].
    destruct (next o) as [q|] eqn:Hq; [|done].
    destruct (segment fuel h q last) as [path'|] eqn:Hseg; [|done]. simpl.
    intros [= <-] Heq Hne. destruct ls1 as [|x ls1]; simplify_eq/=.
    + eauto 10.
    + eapply IH; eauto.
Qed.

Lemma segment_fuel h last fuel : ∀ fuel' first path path',
  segment fuel h first last = Some path →
  segment fuel' h first last = Some path' → path = path'.
Proof.
  induction fuel as [|fuel IH]; intros [|fuel'] first path path'; simpl;
    try done.
  case_decide; [congruence|].
  destruct (h !! first) as [o|]; [|done].
  destruct (next o) as [q|]; [|done].
  destruct (segment fuel h q last) as [p1|] eqn:H1; [|done].
  destruct (segment fuel' h q last) as [p2|] eqn:H2; [|done]. simpl.
  intros [= <-] [= <-]. f_equal. eauto.
Qed.

Lemma segment_NoDup h last fuel : ∀ first path,
  segment fuel h first last = Some path → NoDup path.
Proof.
  induction fuel as [|fuel IH]; intros first path; simpl; [done|].
  case_decide as Hfl.
  - intros [= <-]. apply NoDup_singleton.
  - destruct (h !! first) as [o|] eqn:Hfirst; [|done].
    destruct (next o) as [q|] eqn:Hq; [|done].
    destruct (segment fuel h q last) as [path'|] eqn:Hseg; [|done]. simpl.
    intros [= <-]. apply NoDup_cons. split; [|eauto].
    intros (ls1 & ls2 & Heq)%list_elem_of_split.
    destruct (segment_suffix _ _ _ _ _ _ _ _ Hseg Heq Hfl)
      as (o' & q' & fuel' & Ho' & Hq' & Hseg').
    simplify_eq.
    pose proof (segment_fuel _ _ _ _ _ _ _ Hseg Hseg') as Hlen.
    apply (f_equal length) in Hlen.
    rewrite length_app in Hlen. simpl in Hlen. lia.
Qed.

(** Pointing the last link of a segment at a chain makes one chain. *)
Lemma segment_splice h last o q ls fuel : ∀ first path,
  segment fuel h first last = Some path →
  h !! last = Some o → chain next h q ls →
  (∀ l, l ∈ path → l ∉ ls) →
  chain next (<[last := set_next q o]> h) (Some first) (path ++ ls).
Proof.
  intros first path Hseg Hlast Hc.
  pose proof (segment_NoDup _ _ _ _ _ Hseg) as Hnd.
  revert first path Hseg Hnd.
  induction fuel as [|fuel IH]; intros first path; simpl; [done|].
  case_decide as Hfl.
  - intros [= <-] _ Hdisj. subst first. simpl.
    econstructor; [by rewrite lookup_insert_eq|]. simpl.
    apply chain_insert_off; [done|]. apply Hdisj, list_elem_of_singleton; done.
  - destruct (h !! first) as [o'|] eqn:Hfirst; [|done].
    destruct (next o') as [q'|] eqn:Hq; [|done].
    destruct (segment fuel h q' last) as [path'|] eqn:Hseg; [|done]. simpl.
    intros [= <-] [Hnin Hnd]%NoDup_cons Hdisj. simpl.
    econstructor; [by rewrite lookup_insert_ne|]. rewrite Hq.
    apply IH; [done|done|]. intros l Hl. apply Hdisj. by right.
Qed.

Lemma segment_last h last fuel : ∀ first path,
  segment fuel h first last = Some path → last ∈ path.
Proof.
  induction fuel as [|fuel IH]; intros first path; simpl; [done|].
  case_decide as Hfl.
  - intros [= <-]. subst. by apply list_elem_of_singleton.
  - destruct (h !! first) as [o|]; [|done].
    destruct (next o) as [q|]; [|done].
    destruct (segment fuel h q last) as [path'|] eqn:Hseg; [|done]. simpl.
    intros [= <-]. right. eauto.
Qed.

Lemma constructed_app (tr1 tr2 : list (event Args)) :
  constructed (tr1 ++ tr2) = constructed tr1 ++ constructed tr2.
Proof.
  induction tr1 as [|[args [l|]| | |msg] tr1 IH]; simpl; by rewrite ?IH.
Qed.

Lemma filter_eq_absent l ls :
  l ∉ ls → filter (λ x, x = l) ls = [].
Proof.
  induction ls as [|x ls IH]; intros Hnin; [done|].
  apply not_elem_of_cons in Hnin as [Hne Hnin].
  rewrite filter_cons_False by congruence. auto.
Qed.

Lemma filter_eq_once l ls :
  NoDup ls → l ∈ ls → length (filter (λ x, x = l) ls) = 1.
Proof.
  induction 1 as [|x ls Hx Hnd IH]; intros Hin.
  - by apply elem_of_nil in Hin.
  - destruct (decide (x = l)) as [->|Hne].
    + rewrite filter_cons_True by done. simpl. by rewrite filter_eq_absent.
    + rewrite filter_cons_False by done.
      apply elem_of_cons in Hin as [->|Hin]; [done|]. by apply IH.
Qed.

End chains.

(** ** The registry: the list of all objects ever allocated *)

Section registry.

Context {Body Args : Type}.
Variable supplier : Args → gmap positive (Pooled Body) → option (positive * Body).

(** The supplier's side of the contract: what it returns is freshly backed
    memory, not the address of an object that already exists. *)
Hypothesis supplier_fresh :
  ∀ args h l b, supplier args h = Some (l, b) → h !! l = None.

Implicit Types (w : World Body Args) (h : gmap positive (Pooled Body)).
Implicit Types (o : Pooled Body) (l : positive) (p q : ptr).

Lemma registry_inv_init : registry_inv (init : World Body Args).
Proof.
  split; simpl; try done; [constructor|constructor|].
  intros l. rewrite lookup_empty. split; [by intros ?%elem_of_nil|by intros []].
Qed.

Lemma live_insert h l o o' l' :
  h !! l = Some o → is_Some (<[l := o']> h !! l') ↔ is_Some (h !! l').
Proof.
  intros Hl. rewrite lookup_insert_is_Some.
  destruct (decide (l = l')) as [->|]; [|tauto].
  rewrite Hl. split; eauto.
Qed.

(** A write that keeps the object's [list_next], together with any change
    of the stack top, keeps the registry. *)
Lemma registry_inv_write w l o o' st :
  registry_inv w → heap w !! l = Some o → list_next o' = list_next o →
  registry_inv
    (mkWorld (<[l := o']> (heap w))
       (mkPoolState (lock (state w)) st (list_head (state w))) (trace w)).
Proof.
  intros [Hc Hnd Hlive Hlk] Hl Hf. split; simpl; try done.
  - by eapply chain_insert_same.
  - intros l'. by rewrite (live_insert _ _ _ _ _ Hl).
Qed.

Lemma registry_inv_stack w st :
  registry_inv w →
  registry_inv
    (mkWorld (heap w)
       (mkPoolState (lock (state w)) st (list_head (state w))) (trace w)).
Proof. by intros [Hc Hnd Hlive Hlk]. Qed.

Lemma registry_inv_effect w c v w' :
  registry_inv w → effect supplier w c v w' → registry_inv w'.
Proof.
  intros Hinv He.
  destruct He as [args l o Hst Hl|args l b Hst Hs Hlk|l o Hl| |l o Hl
                 |first l o Hl| |l o Hl]; try done.
  - by eapply registry_inv_write.
  - destruct Hinv as [Hc Hnd Hlive _].
    pose proof (supplier_fresh _ _ _ _ Hs) as Hfresh.
    assert (l ∉ constructed (trace w)) as Hnew.
    { rewrite Hlive, Hfresh. by intros []. }
    split; simpl; rewrite ?constructed_app; simpl; try done.
    + rewrite reverse_snoc. econstructor; [by rewrite lookup_insert_eq|]. simpl.
      apply chain_insert_off; [done|]. by rewrite elem_of_reverse.
    + apply NoDup_app. repeat split; [done| |apply NoDup_singleton].
      intros x Hx ->%list_elem_of_singleton. done.
    + intros l'. rewrite elem_of_app, list_elem_of_singleton, Hlive.
      rewrite lookup_insert_is_Some.
      destruct (decide (l = l')) as [->|]; [|intuition congruence].
      rewrite Hfresh. intuition eauto.
  - by eapply registry_inv_write.
  - by apply registry_inv_stack.
  - by eapply registry_inv_write.
Qed.

Lemma reachable_registry_inv w : reachable supplier w → registry_inv w.
Proof.
  induction 1 as [|w c v w' _ IH Hc]; [apply registry_inv_init|].
  eapply registry_inv_effect; [done|]. by apply exec_effect.
Qed.

(** No call forgets a constructed object. *)
Lemma effect_constructed w c v w' l :
  effect supplier w c v w' →
  l ∈ constructed (trace w) → l ∈ constructed (trace w').
Proof.
  destruct 1; simpl; try done.
  rewrite constructed_app, elem_of_app. auto.
Qed.

Lemma run_registry_inv cs : ∀ w vs w',
  registry_inv w → run supplier cs w = Ret vs w' →
  registry_inv w' ∧
  ∀ l, l ∈ constructed (trace w) → l ∈ constructed (trace w').
Proof.
  induction cs as [|c cs IH]; simpl; intros w vs w' Hinv.
  - by intros [= _ <-].
  - unfold mbind, M_bind, bind.
    destruct (exec supplier c w) as [v w1| | |] eqn:Hc; try done.
    destruct (run supplier cs w1) as [vs1 w2| | |] eqn:Hr; try done.
    intros [= _ <-]. apply exec_effect in Hc.
    destruct (IH _ _ _ (registry_inv_effect _ _ _ _ Hinv Hc) Hr) as [? Hmono].
    split; [done|]. intros l Hl. by eapply Hmono, effect_constructed.
Qed.

(** With the invariant, a full traversal ends and visits the constructed
    objects newest first. *)
Lemma registry_inv_traversal w :
  registry_inv w → registry w = Some (reverse (constructed (trace w))).
Proof.
  intros [Hc Hnd Hlive _]. unfold registry. rewrite iterate_null.
  eapply follow_chain; [apply iterate_live|done|].
  apply live_length; [by rewrite reverse_Permutation|].
  intros l. rewrite elem_of_reverse. apply Hlive.
Qed.

(** C1, as the code has it.  [acquire] splices a new object onto the head
    of the registry, so the registry is ordered newest first:
    [iterate(nullptr)] is the object constructed last, [iterate(p)] is the
    object constructed just before [p] ([nullptr] for the oldest), and a
    traversal from [nullptr] ends and visits the objects in the reverse of
    the order they were constructed in. *)
Theorem iterate_newest_first w :
  reachable supplier w →
  iterate None w = Ret (last (constructed (trace w))) w ∧
  (∀ older a b newer,
     constructed (trace w) = older ++ a :: b :: newer →
     iterate (Some b) w = Ret (Some a) w) ∧
  (∀ a newer,
     constructed (trace w) = a :: newer → iterate (Some a) w = Ret None w) ∧
  registry w = Some (reverse (constructed (trace w))).
Proof.
  intros Hw. pose proof (reachable_registry_inv _ Hw) as Hinv.
  pose proof (reg_chain _ Hinv) as Hc.
  repeat split.
  - rewrite iterate_null. f_equal.
    rewrite (chain_head _ _ _ _ Hc), <- last_reverse.
    by rewrite reverse_involutive.
  - intros older a b newer Heq. rewrite Heq in Hc.
    rewrite reverse_app, !reverse_cons, <- !(assoc_L (++)) in Hc. simpl in Hc.
    apply chain_app_inv in Hc as (o & Hb & Hc).
    rewrite (iterate_live _ _ _ Hb). f_equal.
    by apply chain_head in Hc.
  - intros a newer Heq. rewrite Heq, reverse_cons in Hc.
    apply chain_app_inv in Hc as (o & Ha & Hc).
    rewrite (iterate_live _ _ _ Ha). f_equal.
    by apply chain_head in Hc.
  - by apply registry_inv_traversal.
Qed.

(** C2.  An object that [acquire] constructed on its allocation-miss path
    stays in the registry: whatever calls follow, a full traversal by
    [iterate] ends and meets the object exactly once. *)
Theorem constructed_stays_registered w0 args l w cs vs w' :
  reachable supplier w0 →
  stack (state w0) = None →
  acquire supplier args w0 = Ret (Some l) w →
  run supplier cs w = Ret vs w' →
  ∃ ls, registry w' = Some ls ∧ length (filter (λ x, x = l) ls) = 1.
Proof.
  intros Hw0 Hst Hacq Hrun.
  assert (reachable supplier w) as Hw.
  { by eapply (reachable_step _ w0 (Acquire args)). }
  assert (l ∈ constructed (trace w)) as Hl.
  { pose proof (exec_effect supplier w0 (Acquire args) _ _ Hacq) as He.
    inversion He; subst; [congruence|]. simpl.
    rewrite constructed_app, elem_of_app. right. simpl. by apply list_elem_of_singleton. }
  destruct (run_registry_inv cs w vs w' (reachable_registry_inv _ Hw) Hrun)
    as [Hinv Hmono].
  exists (reverse (constructed (trace w'))). split.
  - by apply registry_inv_traversal.
  - apply filter_eq_once.
    + rewrite reverse_Permutation. apply Hinv.
    + rewrite elem_of_reverse. auto.
Qed.

End registry.

(** ** The free-list and the in-use flag *)

Section free_list.

Context {Body Args : Type}.
Variable supplier : Args → gmap positive (Pooled Body) → option (positive * Body).

Hypothesis supplier_fresh :
  ∀ args h l b, supplier args h = Some (l, b) → h !! l = None.

Implicit Types (w : World Body Args) (h : gmap positive (Pooled Body)).
Implicit Types (o : Pooled Body) (l : positive) (p q : ptr).
Implicit Types (c : Client) (ls : list positive).

Lemma chain_free_list w ls :
  chain next (heap w) (stack (state w)) ls → free_list w = Some ls.
Proof.
  intros Hc. unfold free_list.
  eapply follow_chain; [apply extract_live|done|].
  apply live_length; [by eapply chain_NoDup|].
  intros l. by eapply chain_live.
Qed.

Lemma free_list_chain w ls :
  free_list w = Some ls → chain next (heap w) (stack (state w)) ls.
Proof.
  apply follow_chain_inv; [apply extract_live|apply extract_dead].
Qed.

Lemma protocol_inv_init : protocol_inv (mkClient ∅ ∅) (init : World Body Args) [].
Proof.
  split; simpl.
  - constructor.
  - intros l o. by rewrite lookup_empty.
  - intros l. rewrite lookup_empty. split; [by intros []|set_solver].
  - set_solver.
  - set_solver.
Qed.

Lemma protocol_inv_acquire c w ls args l w' :
  protocol_inv c w ls → acquire supplier args w = Ret (Some l) w' →
  protocol_inv (mkClient ({[l]} ∪ held c) (claimed c)) w' (tail ls).
Proof.
  intros [Hc Hheld Hlive Hfree Hdisj] Hacq.
  pose proof (exec_effect supplier w (Acquire args) _ _ Hacq) as He.
  inversion He as [args' l' o Hst Hl|args' l' b Hst Hs Hlk| | | | | |];
    subst; clear He.
  - rewrite Hst in Hc. inversion Hc as [|l1 o1 ls1 Hl1 Hc1]; subst.
    replace o1 with o in * by congruence.
    apply chain_NoDup in Hc as [Hnin _]%NoDup_cons.
    split; simpl.
    + by apply chain_insert_off.
    + intros l' o'. destruct (decide (l = l')) as [<-|Hne].
      * rewrite lookup_insert_eq. intros [= <-]. simpl. set_solver.
      * rewrite lookup_insert_ne by done. intros Hl''.
        rewrite <- (Hheld _ _ Hl''). set_solver.
    + intros l'. rewrite (live_insert _ _ _ _ _ Hl), Hlive. set_solver.
    + intros l' Hin. destruct (Hfree l') as [? ?]; [set_solver|].
      split; [|done]. set_solver.
    + intros l' [->%elem_of_singleton|Hin]%elem_of_union; [|auto].
      apply Hfree. set_solver.
  - rewrite Hst in Hc. inversion Hc; subst.
    pose proof (supplier_fresh _ _ _ _ Hs) as Hnew.
    assert (¬ l ∈ held c ∧ ¬ l ∈ claimed c) as [Hnh Hnc].
    { split; intros Hin; destruct (proj2 (Hlive l)) as [? Hsome];
        [set_solver|congruence|set_solver|congruence]. }
    split; simpl.
    + constructor.
    + intros l' o'. destruct (decide (l = l')) as [<-|Hne].
      * rewrite lookup_insert_eq. intros [= <-]. simpl. set_solver.
      * rewrite lookup_insert_ne by done. intros Hl''.
        rewrite <- (Hheld _ _ Hl''). set_solver.
    + intros l'. rewrite lookup_insert_is_Some, Hlive.
      destruct (decide (l = l')) as [<-|Hne]; set_solver.
    + set_solver.
    + intros l' [->%elem_of_singleton|Hin]%elem_of_union; auto.
Qed.

Lemma protocol_inv_release c w ls l w' :
  protocol_inv c w ls → l ∈ held c → release (Some l) w = Ret () w' →
  protocol_inv (mkClient (held c ∖ {[l]}) (claimed c)) w' (l :: ls).
Proof.
  intros [Hc Hheld Hlive Hfree Hdisj] Hin Hrel.
  destruct (proj2 (Hlive l)) as [o Hl]; [by left|].
  rewrite (release_live _ _ _ Hl) in Hrel. injection Hrel as <-.
  assert (l ∉ ls) as Hnin by (intros ?%Hfree; tauto).
  split; simpl.
  - econstructor; [by rewrite lookup_insert_eq|]. simpl.
    by apply chain_insert_off.
  - intros l' o'. destruct (decide (l = l')) as [<-|Hne].
    + rewrite lookup_insert_eq. intros [= <-]. simpl. set_solver.
    + rewrite lookup_insert_ne by done. intros Hl''.
      rewrite <- (Hheld _ _ Hl''). set_solver.
  - intros l'. rewrite (live_insert _ _ _ _ _ Hl), Hlive.
    destruct (decide (l = l')) as [<-|Hne]; set_solver.
  - intros l' [->|Hin']%elem_of_cons; [set_solver|].
    destruct (Hfree _ Hin'). set_solver.
  - set_solver.
Qed.

Lemma protocol_inv_extract_all c w ls p w' :
  protocol_inv c w ls → extract None w = Ret p w' →
  protocol_inv
    (mkClient (held c) (claimed c ∪ list_to_set (default [] (free_list w))))
    w' [].
Proof.
  intros [Hc Hheld Hlive Hfree Hdisj]. rewrite extract_null. intros [= _ <-].
  rewrite (chain_free_list _ _ Hc). simpl.
  split; simpl; try done.
  - constructor.
  - intros l. rewrite Hlive. set_solver.
  - set_solver.
  - intros l Hin. specialize (Hdisj _ Hin).
    rewrite elem_of_union, elem_of_list_to_set. intros [?|?%Hfree]; tauto.
Qed.

Lemma protocol_inv_restore c w ls first last path w' :
  protocol_inv c w ls →
  segment (size (heap w)) (heap w) first last = Some path →
  (∀ l, l ∈ path → l ∈ claimed c) →
  restore (Some first) (Some last) w = Ret () w' →
  protocol_inv (mkClient (held c) (claimed c ∖ list_to_set path)) w' (path ++ ls).
Proof.
  intros [Hc Hheld Hlive Hfree Hdisj] Hseg Hpath Hres.
  destruct (proj2 (Hlive last)) as [o Hl].
  { right; left. eapply Hpath, segment_last, Hseg. }
  rewrite (restore_live _ _ _ _ Hl) in Hres. injection Hres as <-.
  assert (in_use o = false) as Hflag.
  { destruct (in_use o) eqn:Hu; [|done]. apply (Hheld _ _ Hl) in Hu.
    apply Hdisj in Hu. destruct Hu. eapply Hpath, segment_last, Hseg. }
  split; simpl.
  - eapply segment_splice; [done..|].
    intros l Hin Hin'. apply Hfree in Hin'. apply Hpath in Hin. tauto.
  - intros l' o'. destruct (decide (last = l')) as [<-|Hne].
    + rewrite lookup_insert_eq. intros [= <-]. simpl.
      rewrite (Hheld _ _ Hl). done.
    + rewrite lookup_insert_ne by done. apply Hheld.
  - intros l'. rewrite (live_insert _ _ _ _ _ Hl), Hlive.
    rewrite elem_of_app, elem_of_difference, elem_of_list_to_set.
    destruct (decide (l' ∈ path)); [|tauto]. intuition auto.
  - intros l' [Hin|Hin]%elem_of_app.
    + split; [|set_solver]. intros Hh. apply Hdisj in Hh. auto.
    + destruct (Hfree _ Hin). set_solver.
  - intros l' Hin. specialize (Hdisj _ Hin). set_solver.
Qed.

Lemma protocol_has_inv c w : protocol supplier c w → ∃ ls, protocol_inv c w ls.
Proof.
  induction 1 as [|c w args l w' _ [ls IH] Hacq|c w l w' _ [ls IH] Hin Hrel
                 |c w p w' _ [ls IH] Hext|c w l q w' _ [ls IH] Hin Hext
                 |c w first last path w' _ [ls IH] Hseg Hpath Hres
                 |c w p q w' _ [ls IH] Hit].
  - eexists. apply protocol_inv_init.
  - eexists. by eapply protocol_inv_acquire.
  - eexists. by eapply protocol_inv_release.
  - eexists. by eapply protocol_inv_extract_all.
  - apply (exec_effect supplier w (Extract (Some l))) in Hext.
    inversion Hext; subst. eauto.
  - eexists. by eapply protocol_inv_restore.
  - apply (exec_effect supplier w (Iterate p)) in Hit.
    inversion Hit; subst; eauto.
Qed.

(** A write that keeps [list_next], with any change of the stack top and
    of the trace, is invisible to a traversal of the registry. *)
Lemma registry_write w l o o' st (tr : list (event Args)) :
  heap w !! l = Some o → list_next o' = list_next o →
  registry
    (mkWorld (<[l := o']> (heap w))
       (mkPoolState (lock (state w)) st (list_head (state w))) tr)
  = registry w.
Proof.
  intros Hl Hf. unfold registry. rewrite !iterate_null. simpl.
  rewrite map_size_insert_Some by eauto.
  apply follow_ext. intros l1.
  destruct (heap w !! l1) as [o1|] eqn:Hl1.
  - rewrite (iterate_live w _ _ Hl1).
    destruct (decide (l = l1)) as [<-|Hne].
    + erewrite iterate_live by (simpl; apply lookup_insert_eq). congruence.
    + erewrite iterate_live by (simpl; by rewrite lookup_insert_ne). done.
  - rewrite (iterate_dead w _ Hl1).
    rewrite iterate_dead; [done|]. simpl.
    rewrite lookup_insert_ne; [done|]. intros <-. congruence.
Qed.

(** A traversal reads the heap and the registry head, a walk of the stack
    the heap and the stack top; nothing else matters to them. *)
Lemma registry_ext w w' :
  heap w' = heap w → list_head (state w') = list_head (state w) →
  registry w' = registry w.
Proof.
  intros Hh Hli. unfold registry. rewrite !iterate_null, Hh, Hli.
  apply follow_ext. intros l1. unfold iterate, load, mbind, M_bind, bind.
  rewrite Hh. by destruct (heap w !! l1).
Qed.

Lemma free_list_ext w w' :
  heap w' = heap w → stack (state w') = stack (state w) →
  free_list w' = free_list w.
Proof.
  intros Hh Hst. unfold free_list. rewrite Hh, Hst.
  apply follow_ext. intros l1. unfold extract, load, mbind, M_bind, bind.
  rewrite Hh. by destruct (heap w !! l1).
Qed.

(** C3.  Between the calls of a caller that keeps to the contract, the
    stack of unused objects is a proper chain, and an object that is not in
    the claimed window (detached by [extract(nullptr)] and not yet
    restored) is on that chain if and only if its in-use flag is clear.
    An object in the claimed window has its flag clear and is not on the
    chain. *)
Theorem free_iff_not_in_use c w :
  protocol supplier c w →
  ∃ ls, free_list w = Some ls ∧
    ∀ l o, heap w !! l = Some o →
      (l ∉ claimed c → (l ∈ ls ↔ in_use o = false)) ∧
      (l ∈ claimed c → ¬ l ∈ ls ∧ in_use o = false).
Proof.
  intros [ls [Hc Hheld Hlive Hfree Hdisj]]%protocol_has_inv.
  exists ls. split; [by apply chain_free_list|].
  intros l o Hl. specialize (Hheld _ _ Hl).
  assert (is_Some (heap w !! l)) as Hsome%Hlive by eauto.
  split.
  - intros Hnc. split.
    + intros [Hnh _]%Hfree. destruct (in_use o); [|done]. tauto.
    + intros Hflag. rewrite Hflag in Hheld.
      destruct Hsome as [Hh|[?|?]]; [|done..].
      apply Hheld in Hh. done.
  - intros Hcl. split.
    + intros [_ ?]%Hfree. done.
    + destruct (in_use o); [|done].
      destruct (Hdisj l); [tauto|done].
Qed.

End free_list.

(** ** Single calls and round trips *)

Section calls.

Context {Body Args : Type}.
Variable supplier : Args → gmap positive (Pooled Body) → option (positive * Body).

Implicit Types (w : World Body Args) (h : gmap positive (Pooled Body)).
Implicit Types (o : Pooled Body) (l : positive) (p q : ptr).
Implicit Types (ls : list positive).

(** C4.  When [acquire] finds the stack empty and the supplier answers
    [nullptr], the call does not return: the supplier was asked once, the
    message went to the platform error channel, the process halted, and
    heap and pool state -- registry and free-list with them -- are as they
    were. *)
Theorem acquire_supplier_failure args w :
  stack (state w) = None → supplier args (heap w) = None →
  ∃ w', acquire supplier args w = Halt w' ∧
    trace w' =
      trace w ++ [EvAlloc args None;
                  EvError "Failed to initialise thread local allocator."] ∧
    heap w' = heap w ∧ state w' = state w ∧
    registry w' = registry w ∧ free_list w' = free_list w.
Proof.
  intros Hst Hs. rewrite (acquire_fail _ _ _ Hst Hs).
  eexists. split; [done|]. simpl. repeat split.
  - by apply registry_ext.
  - by apply free_list_ext.
Qed.

(** C5.  [release(p)] on a live object clears its in-use flag, points its
    free-list link at the old stack top and makes it the top.  Its
    [list_next] and body are as before, no other object is written, the
    registry head, the lock and the trace are as before, and a traversal
    of the registry sees no difference.  When [p] was not on the stack,
    the stack is now [p] followed by what it was. *)
Theorem release_frame w l o :
  heap w !! l = Some o →
  ∃ w', release (Some l) w = Ret () w' ∧
    heap w' !! l =
      Some (mkPooled (stack (state w)) (list_next o) false (body o)) ∧
    stack (state w') = Some l ∧
    (∀ l', l' ≠ l → heap w' !! l' = heap w !! l') ∧
    list_head (state w') = list_head (state w) ∧
    lock (state w') = lock (state w) ∧
    trace w' = trace w ∧
    registry w' = registry w ∧
    (∀ ls, free_list w = Some ls → l ∉ ls → free_list w' = Some (l :: ls)).
Proof.
  intros Hl. rewrite (release_live _ _ _ Hl). eexists. split; [done|]. simpl.
  repeat split.
  - apply lookup_insert_eq.
  - intros l' Hne. by rewrite lookup_insert_ne.
  - by eapply registry_write.
  - intros ls Hfl Hnin. apply chain_free_list. simpl.
    econstructor; [apply lookup_insert_eq|]. simpl.
    apply chain_insert_off; [|done]. by apply free_list_chain.
Qed.

(** C6, as the code has it.  With the stack empty, [release(x)] followed by
    [acquire] returns [x] from the stack: the supplier is not asked and
    the lock is not taken (the trace is as before), and the pool state is
    as before.  [x] keeps its [list_next] and body and has its flag set;
    its free-list link is null, whatever it was. *)
Theorem release_acquire_round_trip w x o args :
  heap w !! x = Some o → stack (state w) = None →
  ∃ w1 w2,
    release (Some x) w = Ret () w1 ∧
    acquire supplier args w1 = Ret (Some x) w2 ∧
    trace w2 = trace w ∧ state w2 = state w ∧
    heap w2 = <[x := mkPooled None (list_next o) true (body o)]> (heap w).
Proof.
  intros Hl Hst. rewrite (release_live _ _ _ Hl). eexists _, _.
  split; [done|].
  erewrite acquire_hit; [|done|simpl; apply lookup_insert_eq].
  split; [done|]. simpl. rewrite Hst, insert_insert_eq.
  destruct w as [h [lk st li] tr]. simpl in *. by subst.
Qed.

(** C7.  [extract(nullptr)] returns the top of the stack and leaves the
    stack empty; handing the whole chain back with [restore], from its
    first to its last object, puts the pool in the state it was in before
    the [extract], so the stack has the members it had; a traversal of the
    registry sees no difference at either point.  On an empty stack
    [extract] returns [nullptr] and there is no chain to hand back. *)
Theorem extract_restore_round_trip w ls :
  free_list w = Some ls →
  ∃ w1,
    extract None w = Ret (head ls) w1 ∧
    free_list w1 = Some [] ∧
    registry w1 = registry w ∧
    ∀ first lst, head ls = Some first → last ls = Some lst →
      ∃ w2 ls',
        restore (Some first) (Some lst) w1 = Ret () w2 ∧
        free_list w2 = Some ls' ∧ ls' ≡ₚ ls ∧
        registry w2 = registry w ∧
        w2 = w.
Proof.
  intros Hfl. pose proof (free_list_chain _ _ Hfl) as Hc.
  rewrite extract_null. eexists. split; [by rewrite (chain_head _ _ _ _ Hc)|].
  split; [by apply chain_free_list; constructor|].
  split; [by apply registry_ext|].
  intros first lst Hfirst [ls0 ->]%last_Some.
  pose proof Hc as Hc'. apply chain_app_inv in Hc' as (o & Hl & Hnil).
  apply chain_head in Hnil. simpl in Hnil.
  erewrite restore_live by (simpl; exact Hl). simpl.
  assert (w = mkWorld (<[lst := set_next None o]> (heap w))
                (mkPoolState (lock (state w)) (Some first) (list_head (state w)))
                (trace w)) as <-.
  { rewrite insert_id.
    - rewrite <- Hfirst, <- (chain_head _ _ _ _ Hc).
      by destruct w as [h [lk st li] tr].
    - rewrite Hl. f_equal. destruct o; simpl in *. by subst. }
  eexists _, _. repeat split; done.
Qed.

(** C8.  On an empty stack [pop], [pop_all] and [extract(nullptr)] return
    [nullptr] and leave the world as it is, however often they are
    called. *)
Theorem empty_stack_extract w :
  stack (state w) = None →
  pop w = Ret None w ∧ pop_all w = Ret None w ∧ extract None w = Ret None w ∧
  ∀ n, run supplier (replicate n (Extract None)) w = Ret (replicate n None) w.
Proof.
  intros Hst.
  assert (extract None w = Ret None w) as Hext.
  { rewrite extract_null, Hst. by destruct w as [h [lk st li] tr]; simplify_eq/=. }
  repeat split; try done.
  - unfold pop, get_stack, mbind, M_bind, bind. by rewrite Hst.
  - induction n as [|n IH]; [done|]. cbn [replicate run exec].
    unfold mbind, M_bind, bind. by rewrite Hext, IH.
Qed.

(** C10, as the code has it.  [restore(first,last)] points the free-list
    link of [last] at the old stack top and makes [first] the top.  It
    writes nothing else: every other object is as it was, and [last]
    keeps its in-use flag, its [list_next] and its body -- no flag is
    cleared. *)
Theorem restore_frame w first lst o :
  heap w !! lst = Some o →
  ∃ w', restore first (Some lst) w = Ret () w' ∧
    heap w' !! lst =
      Some (mkPooled (stack (state w)) (list_next o) (in_use o) (body o)) ∧
    (∀ l, l ≠ lst → heap w' !! l = heap w !! l) ∧
    (∀ l o1, heap w !! l = Some o1 →
       ∃ o2, heap w' !! l = Some o2 ∧ in_use o2 = in_use o1 ∧
         list_next o2 = list_next o1 ∧ body o2 = body o1) ∧
    stack (state w') = first ∧
    list_head (state w') = list_head (state w) ∧
    lock (state w') = lock (state w) ∧
    trace w' = trace w.
Proof.
  intros Hl. rewrite (restore_live _ _ _ _ Hl). eexists. split; [done|]. simpl.
  repeat split.
  - apply lookup_insert_eq.
  - intros l Hne. by rewrite lookup_insert_ne.
  - intros l o1 Hl1. destruct (decide (lst = l)) as [<-|Hne].
    + rewrite lookup_insert_eq. eexists. split; [done|].
      by replace o1 with o by congruence.
    + rewrite lookup_insert_ne by done. eauto.
Qed.

End calls.

(** ** Playing by the contract *)

Section play.

Context {Body Args : Type}.
Variable supplier : Args → gmap positive (Pooled Body) → option (positive * Body).

(** [play] makes the calls of a caller that keeps to the contract. *)
Lemma play_step_protocol c0 cl (w : World Body Args) cl' w' :
  protocol supplier cl w → play_step supplier c0 (cl, w) = Some (cl', w') →
  protocol supplier cl' w'.
Proof.
  intros Hp.
  destruct c0 as [args|[l|]|[l|]|[first|] [lst|]|p]; cbn [play_step]; try done.
  - destruct (acquire supplier args w) as [[l|] w1| | |] eqn:Hacq; try done.
    intros [= <- <-]. by eapply protocol_acquire.
  - case_decide as Hin; [|done].
    destruct (release (Some l) w) as [[] w1| | |] eqn:Hrel; try done.
    intros [= <- <-]. by eapply protocol_release.
  - case_decide as Hin; [|done].
    destruct (extract (Some l) w) as [q w1| | |] eqn:Hext; try done.
    intros [= <- <-]. by eapply protocol_extract_next.
  - intros [= <- <-]. by eapply protocol_extract_all.
  - destruct (segment _ _ first lst) as [path|] eqn:Hseg; [|done].
    case_decide as Hall; [|done].
    destruct (restore (Some first) (Some lst) w) as [[] w1| | |] eqn:Hres;
      try done.
    intros [= <- <-]. eapply protocol_restore; [done..| |done].
    by apply Forall_forall.
  - destruct (iterate p w) as [q w1| | |] eqn:Hit; try done.
    intros [= <- <-]. by eapply protocol_iterate.
Qed.

Lemma play_protocol cs : ∀ cl (w : World Body Args) cl' w',
  protocol supplier cl w → play supplier cs (cl, w) = Some (cl', w') →
  protocol supplier cl' w'.
Proof.
  induction cs as [|c0 cs IH]; cbn [play]; intros cl w cl' w' Hp.
  - by intros [= <- <-].
  - destruct (play_step supplier c0 (cl, w)) as [[cl1 w1]|] eqn:Hstep; [|done].
    intros Hplay. eapply IH; [|done]. by eapply play_step_protocol.
Qed.

End play.

(** ** The claims on the pool of counters *)

Lemma demo_supplier_fresh cap args h l b :
  Demo.supplier cap args h = Some (l, b) → h !! l = None.
Proof.
  unfold Demo.supplier. case_decide; [|done]. intros [= <- _].
  apply not_elem_of_dom, is_fresh.
Qed.

Lemma after_reachable cap cs :
  reachable (Demo.supplier cap) (Demo.after cap cs).
Proof.
  unfold Demo.after.
  destruct (run (Demo.supplier cap) cs init) as [vs w| | |] eqn:Hrun;
    try apply reachable_init.
  by eapply run_reachable.
Qed.

Lemma played_protocol cap cs :
  protocol (Demo.supplier cap) (Demo.played cap cs).1 (Demo.played cap cs).2.
Proof.
  unfold Demo.played.
  destruct (play (Demo.supplier cap) cs _) as [[cl w]|] eqn:Hplay; simpl.
  - eapply play_protocol; [apply protocol_init|done].
  - apply protocol_init.
Qed.

(** C1 as stated fails: after two objects were constructed, at addresses 1
    and then 2, [iterate(nullptr)] is the second one. *)
Lemma iterate_not_insertion_ordered : ¬ insertion_ordered (Demo.supplier 2).
Proof.
  intros Hord.
  destruct (Hord (Demo.after 2 [Acquire 10; Acquire 20]) (after_reachable _ _))
    as [Hit _].
  vm_compute in Hit. discriminate Hit.
Qed.

Lemma iterate_newest_first_witness :
  let w := Demo.after 3 [Acquire 10; Acquire 20; Release (Some 1%positive);
                         Acquire 30] in
  reachable (Demo.supplier 3) w ∧
  iterate None w = Ret (Some 2%positive) w ∧
  registry w = Some [2%positive; 1%positive].
Proof.
  intros w.
  destruct (iterate_newest_first (Demo.supplier 3) (demo_supplier_fresh 3) w
              (after_reachable _ _)) as (Hnull & _ & _ & Hreg).
  split; [apply after_reachable|]. split; [exact Hnull|exact Hreg].
Defined.

Lemma constructed_stays_registered_witness :
  ∃ ls,
    registry (Demo.after 3 [Acquire 10; Release (Some 1%positive); Acquire 20;
                            Acquire 30; Release (Some 2%positive);
                            Extract None]) = Some ls ∧
    length (filter (λ x, x = 1%positive) ls) = 1.
Proof.
  apply (constructed_stays_registered (Demo.supplier 3) (demo_supplier_fresh 3)
           init 10 1%positive (Demo.after 3 [Acquire 10])
           [Release (Some 1%positive); Acquire 20; Acquire 30;
            Release (Some 2%positive); Extract None]
           [None; Some 1%positive; Some 2%positive; None; Some 2%positive]).
  - apply reachable_init.
  - reflexivity.
  - vm_compute. reflexivity.
  - vm_compute. reflexivity.
Defined.

Lemma free_iff_not_in_use_witness :
  let s := Demo.played 3 [Acquire 10; Acquire 20; Acquire 30;
                          Release (Some 1%positive); Extract None;
                          Release (Some 2%positive)] in
  protocol (Demo.supplier 3) s.1 s.2 ∧
  ∃ ls, free_list s.2 = Some ls ∧
    ∀ l o, heap s.2 !! l = Some o →
      (l ∉ claimed s.1 → (l ∈ ls ↔ in_use o = false)) ∧
      (l ∈ claimed s.1 → ¬ l ∈ ls ∧ in_use o = false).
Proof.
  intros s. split; [apply played_protocol|].
  apply (free_iff_not_in_use (Demo.supplier 3) (demo_supplier_fresh 3)).
  apply played_protocol.
Defined.

Lemma acquire_supplier_failure_witness :
  let w := Demo.after 1 [Acquire 10] in
  ∃ w', acquire (Demo.supplier 1) 20 w = Halt w' ∧
    trace w' =
      trace w ++ [EvAlloc 20 None;
                  EvError "Failed to initialise thread local allocator."] ∧
    heap w' = heap w ∧ state w' = state w ∧
    registry w' = registry w ∧ free_list w' = free_list w.
Proof.
  intros w. apply (acquire_supplier_failure (Demo.supplier 1) 20 w).
  - reflexivity.
  - vm_compute. reflexivity.
Defined.

Lemma release_frame_witness :
  let w := Demo.after 3 [Acquire 10; Acquire 20; Release (Some 1%positive)] in
  ∃ w', release (Some 2%positive) w = Ret () w' ∧
    heap w' !! 2%positive =
      Some (mkPooled (Some 1%positive) (Some 1%positive) false 20) ∧
    stack (state w') = Some 2%positive.
Proof.
  intros w.
  destruct (release_frame w 2%positive
              (mkPooled None (Some 1%positive) true 20))
    as (w' & Hrel & Hobj & Htop & _).
  - vm_compute. reflexivity.
  - exists w'. split; [exact Hrel|]. split; [exact Hobj|exact Htop].
Defined.

(** C6 as stated fails on the free-list link.  Objects 1 and 2 are
    acquired, released (2 first) and acquired again: 1 is then in use with
    its link still on 2, and the stack is empty.  [release(1)] points the
    link at the empty stack. *)
Lemma round_trip_changes_link : ¬ round_trip_keeps_fields (Demo.supplier 2).
Proof.
  intros Hkeep.
  pose (cs := [Acquire 10; Acquire 20; Release (Some 2%positive);
               Release (Some 1%positive); Acquire 0; Acquire 0]).
  destruct (Hkeep (Demo.after 2 cs) (after_reachable _ _) 1%positive
              (mkPooled (Some 2%positive) None true 10) 5
              (Demo.after 2 (cs ++ [Release (Some 1%positive)]))
              (Some 1%positive)
              (Demo.after 2 (cs ++ [Release (Some 1%positive); Acquire 5])))
    as (_ & o' & Hl & Hnext & _); try (vm_compute; reflexivity).
  vm_compute in Hl. injection Hl as <-. discriminate Hnext.
Qed.

Lemma release_acquire_round_trip_witness :
  let w := Demo.after 2 [Acquire 10; Acquire 20; Release (Some 2%positive);
                         Release (Some 1%positive); Acquire 0; Acquire 0] in
  ∃ w1 w2,
    release (Some 1%positive) w = Ret () w1 ∧
    acquire (Demo.supplier 2) 5 w1 = Ret (Some 1%positive) w2 ∧
    trace w2 = trace w ∧ state w2 = state w ∧
    heap w2 = <[1%positive := mkPooled None None true 10]> (heap w).
Proof.
  intros w.
  apply (release_acquire_round_trip (Demo.supplier 2) w 1%positive
           (mkPooled (Some 2%positive) None true 10) 5).
  - vm_compute. reflexivity.
  - reflexivity.
Defined.

Lemma extract_restore_round_trip_witness :
  let w := Demo.after 3 [Acquire 10; Acquire 20; Acquire 30;
                         Release (Some 1%positive); Release (Some 3%positive)] in
  free_list w = Some [3%positive; 1%positive] ∧
  ∃ w1,
    extract None w = Ret (Some 3%positive) w1 ∧
    free_list w1 = Some [] ∧
    ∃ w2 ls',
      restore (Some 3%positive) (Some 1%positive) w1 = Ret () w2 ∧
      free_list w2 = Some ls' ∧ ls' ≡ₚ [3%positive; 1%positive] ∧
      registry w2 = registry w.
Proof.
  intros w.
  assert (free_list w = Some [3%positive; 1%positive]) as Hfl
    by (vm_compute; reflexivity).
  split; [exact Hfl|].
  destruct (extract_restore_round_trip w _ Hfl) as (w1 & Hext & Hnil & _ & Hback).
  exists w1. split; [exact Hext|]. split; [exact Hnil|].
  destruct (Hback 3%positive 1%positive eq_refl eq_refl)
    as (w2 & ls' & Hres & Hfl' & Hperm & Hreg & _).
  exists w2, ls'. auto.
Defined.

Lemma empty_stack_extract_witness :
  let w := Demo.after 3 [Acquire 10] in
  stack (state w) = None ∧
  pop w = Ret None w ∧ pop_all w = Ret None w ∧ extract None w = Ret None w ∧
  run (Demo.supplier 3) [Extract None; Extract None; Extract None] w
    = Ret [None; None; None] w.
Proof.
  intros w.
  destruct (empty_stack_extract (Demo.supplier 3) w eq_refl)
    as (Hpop & Hall & Hext & Hrep).
  split; [reflexivity|]. split; [exact Hpop|]. split; [exact Hall|].
  split; [exact Hext|]. exact (Hrep 3).
Defined.

(** C10 as stated fails on the free-list link of [last].  Object 1 is
    released and detached by [extract(nullptr)], then object 2 is
    released; [restore(1,1)] points the link of 1, null until then, at
    2. *)
Lemma restore_writes_last_link : ¬ restore_writes_no_field (Demo.supplier 2).
Proof.
  intros Hnone.
  pose (cs := [Acquire 10; Acquire 20; Release (Some 1%positive); Extract None;
               Release (Some 2%positive)]).
  pose proof (Hnone (Demo.played 2 cs).1 (Demo.played 2 cs).2
                1%positive 1%positive [1%positive]
                (Demo.played 2 (cs ++ [Restore (Some 1%positive)
                                         (Some 1%positive)])).2
                (played_protocol _ _)) as Hsame.
  specialize (Hsame eq_refl).
  assert (heap (Demo.played 2 (cs ++ [Restore (Some 1%positive)
                                        (Some 1%positive)])).2 !! 1%positive
          = heap (Demo.played 2 cs).2 !! 1%positive) as Heq.
  { apply Hsame.
    - intros l ->%list_elem_of_singleton. apply (bool_decide_unpack _).
      vm_compute. exact I.
    - vm_compute. reflexivity.
    - by apply list_elem_of_singleton. }
  vm_compute in Heq. discriminate Heq.
Qed.

Lemma restore_frame_witness :
  let w := (Demo.played 2 [Acquire 10; Acquire 20; Release (Some 1%positive);
                           Extract None; Release (Some 2%positive)]).2 in
  ∃ w', restore (Some 1%positive) (Some 1%positive) w = Ret () w' ∧
    heap w' !! 1%positive = Some (mkPooled (Some 2%positive) None false 10) ∧
    heap w' !! 2%positive = heap w !! 2%positive ∧
    stack (state w') = Some 1%positive.
Proof.
  intros w.
  destruct (restore_frame w (Some 1%positive) 1%positive
              (mkPooled None None false 10))
    as (w' & Hres & Hlast & Hother & _ & Htop & _).
  - vm_compute. reflexivity.
  - exists w'. split; [exact Hres|]. split; [exact Hlast|].
    split; [by apply Hother|exact Htop].
Defined.

(** ** The singleton gate *)

Section singleton_facts.

Context {Shared : Type}.
Variable handle_ensure_init : option (Shared → Shared).

Implicit Types (g : Gate Shared) (t : nat).

(** A thread whose marker is set has run the hook, when there is one. *)
Lemma gate_initialized_hooked s0 g t :
  gate_reachable handle_ensure_init s0 g →
  t ∈ initialized g → is_Some handle_ensure_init → t ∈ hooks g.
Proof.
  induction 1 as [|g t' r g' _ IH Hpool]; intros Hin Hsome.
  - by apply not_elem_of_empty in Hin.
  - unfold pool in Hpool. case_decide as Hdec.
    + injection Hpool as _ <-. auto.
    + injection Hpool as _ <-. simpl in *.
      unfold ensure_init, call_ensure_init in *.
      destruct Hsome as [f ->]. simpl in *.
      apply elem_of_app.
      apply elem_of_union in Hin as [->%elem_of_singleton|Hin]; [|auto].
      right. by apply list_elem_of_singleton.
Qed.

Lemma pool_calls_reachable s0 ts : ∀ g,
  gate_reachable handle_ensure_init s0 g →
  gate_reachable handle_ensure_init s0 (pool_calls handle_ensure_init ts g).2.
Proof.
  induction ts as [|t ts IH]; intros g Hg; [done|]. cbn [pool_calls].
  destruct (pool handle_ensure_init t g) as [r g1] eqn:Hpool.
  specialize (IH g1 (gate_reachable_pool _ _ _ _ _ _ Hg Hpool)).
  by destruct (pool_calls handle_ensure_init ts g1).
Qed.

(** C9.  Every call of [pool()], by whatever thread and after whatever
    calls, returns a reference to the one static [state].  When the handle
    declares the hook, the calling thread has run it by the time the
    reference is returned: on the thread's first call, whose marker is
    still clear, the hook is run and the marker set; on its later calls
    nothing is done. *)
Theorem pool_singleton s0 g t r g' :
  gate_reachable handle_ensure_init s0 g →
  pool handle_ensure_init t g = (r, g') →
  r = StaticState ∧
  (is_Some handle_ensure_init → t ∈ hooks g') ∧
  t ∈ initialized g' ∧
  (t ∉ initialized g →
     g' = mkGate ({[t]} ∪ initialized g)
            (from_option (λ f, f (shared g)) (shared g) handle_ensure_init)
            (hooks g ++ if handle_ensure_init is Some _ then [t] else [])) ∧
  (t ∈ initialized g → g' = g).
Proof.
  intros Hreach Hpool.
  assert (gate_reachable handle_ensure_init s0 g') as Hreach'
    by (by econstructor).
  unfold pool in Hpool. case_decide as Hdec; injection Hpool as <- <-.
  - repeat split; try done.
    by eapply gate_initialized_hooked.
  - repeat split; try done.
    + intros Hsome. eapply gate_initialized_hooked; [exact Hreach'| |done].
      simpl. set_solver.
    + simpl. set_solver.
    + intros _. unfold ensure_init, call_ensure_init.
      destruct handle_ensure_init as [f|]; simpl; [done|].
      rewrite app_nil_r. by destruct g.
Qed.

End singleton_facts.

Lemma pool_singleton_witness :
  let g := (pool_calls (Some S) [0; 1; 0] (gate_init 7)).2 in
  gate_reachable (Some S) 7 g ∧
  ∃ g', pool (Some S) 2 g = (StaticState, g') ∧
    hooks g' = [0; 1; 2] ∧ shared g' = 10 ∧
    pool (Some S) 2 g' = (StaticState, g').
Proof.
  intros g.
  assert (gate_reachable (Some S) 7 g) as Hreach.
  { apply pool_calls_reachable, gate_reachable_init. }
  split; [exact Hreach|].
  destruct (pool (Some S) 2 g) as [r g'] eqn:Hpool.
  destruct (pool_singleton (Some S) 7 g 2 r g' Hreach Hpool)
    as (-> & _ & _ & Hfirst & _).
  exists g'. split; [reflexivity|].
  rewrite Hfirst by (vm_compute; discriminate).
  repeat split; vm_compute; reflexivity.
Defined.

(** ** Further properties of the operation surface *)

Section surface.

Context {Body Args : Type}.
Variable supplier : Args → gmap positive (Pooled Body) → option (positive * Body).

Hypothesis supplier_fresh :
  ∀ args h l b, supplier args h = Some (l, b) → h !! l = None.

Implicit Types (w : World Body Args) (h : gmap positive (Pooled Body)).
Implicit Types (o : Pooled Body) (l : positive) (p q : ptr).
Implicit Types (c : Client) (ls : list positive).

(** A caller that keeps to the contract makes calls that return. *)
Lemma protocol_reachable c w : protocol supplier c w → reachable supplier w.
Proof.
  induction 1 as [|c w args l w' _ IH Hacq|c w l w' _ IH Hin Hrel
                 |c w p w' _ IH Hext|c w l q w' _ IH Hin Hext
                 |c w first lst path w' _ IH Hseg Hpath Hres
                 |c w p q w' _ IH Hit].
  - apply reachable_init.
  - by eapply (reachable_step _ w (Acquire args)).
  - eapply (reachable_step _ w (Release (Some l)) None); [done|].
    cbn [exec]. unfold mbind, M_bind, bind. by rewrite Hrel.
  - by eapply (reachable_step _ w (Extract None)).
  - by eapply (reachable_step _ w (Extract (Some l))).
  - eapply (reachable_step _ w (Restore (Some first) (Some lst)) None); [done|].
    cbn [exec]. unfold mbind, M_bind, bind. by rewrite Hres.
  - by eapply (reachable_step _ w (Iterate p)).
Qed.

Lemma constructions_app (xs ys : list (Args * positive)) :
  constructions (xs ++ ys) = constructions xs ++ constructions ys.
Proof. induction xs as [|[args l] xs IH]; simpl; by rewrite ?IH. Qed.

(** X1.  When [acquire] returns, what it returns is not [nullptr]: it is
    the address of an object whose in-use flag is set. *)
Theorem acquire_never_null args w p w' :
  acquire supplier args w = Ret p w' →
  ∃ l o, p = Some l ∧ heap w' !! l = Some o ∧ in_use o = true.
Proof.
  intros He. apply (exec_effect supplier w (Acquire args)) in He.
  inversion He; subst; eexists _, _; (split; [done|]); simpl;
    by rewrite lookup_insert_eq.
Qed.

Lemma effect_object_kept w (c0 : call Args) v w' l o :
  effect supplier w c0 v w' → heap w !! l = Some o →
  ∃ o', heap w' !! l = Some o' ∧ body o' = body o ∧ list_next o' = list_next o.
Proof.
  intros He Hl.
  destruct He as [args l1 o1 Hst Hl1|args l1 b Hst Hs Hlk|l1 o1 Hl1| |l1 o1 Hl1
                 |first l1 o1 Hl1| |l1 o1 Hl1]; simpl; eauto;
    try (destruct (decide (l1 = l)) as [->|Hne];
         [rewrite lookup_insert_eq; replace o1 with o by congruence; eauto
         |rewrite lookup_insert_ne by done; eauto]).
  rewrite lookup_insert_ne; [eauto|].
  intros <-. apply supplier_fresh in Hs. congruence.
Qed.

(** X2.  The pool never gives up or rebuilds an object: through any calls
    that return, an object stays at its address with the body and the
    [list_next] it had -- no destructor, no constructor, no reset. *)
Theorem objects_never_destroyed cs : ∀ w vs w' l o,
  run supplier cs w = Ret vs w' → heap w !! l = Some o →
  ∃ o', heap w' !! l = Some o' ∧ body o' = body o ∧ list_next o' = list_next o.
Proof.
  induction cs as [|c0 cs IH]; cbn [run]; intros w vs w' l o.
  - intros [= _ <-]. eauto.
  - unfold mbind, M_bind, bind.
    destruct (exec supplier c0 w) as [v w1| | |] eqn:Hc; try done.
    destruct (run supplier cs w1) as [vs1 w2| | |] eqn:Hr; try done.
    intros [= _ <-] Hl. apply exec_effect in Hc.
    destruct (effect_object_kept _ _ _ _ _ _ Hc Hl) as (o1 & Hl1 & Hb1 & Hn1).
    destruct (IH _ _ _ _ _ Hr Hl1) as (o2 & Hl2 & Hb2 & Hn2).
    exists o2. split; [done|]. split; congruence.
Qed.

(** X3.  The lock is free between calls, and it is only ever taken to
    register a newly constructed object: what the calls leave in the trace
    is, for each object in the order of construction, the supplier's
    answer, the lock taken and the lock dropped.  So the supplier is never
    called under the lock, and no call that finds its object on the stack
    touches lock or supplier. *)
Theorem lock_only_for_registration w :
  reachable supplier w →
  lock (state w) = false ∧ ∃ xs, trace w = constructions xs.
Proof.
  induction 1 as [|w c0 v w' _ (Hlk & xs & Htr) Hc].
  - split; [done|]. by exists [].
  - apply exec_effect in Hc.
    destruct Hc as [args l1 o1 Hst Hl1|args l1 b Hst Hs Hlk'|l1 o1 Hl1| |l1 o1 Hl1
                   |first l1 o1 Hl1| |l1 o1 Hl1]; simpl; eauto.
    split; [done|]. exists (xs ++ [(args, l1)]).
    by rewrite constructions_app, Htr.
Qed.

(** X4.  The registry only grows, and only at its head: a call that
    returns leaves a traversal as it was, or -- when [acquire] constructed
    an object -- puts that one object, which was not in it, in front. *)
Theorem registry_grows_at_head w (c0 : call Args) v w' :
  reachable supplier w → exec supplier c0 w = Ret v w' →
  ∃ reg, registry w = Some reg ∧
    (registry w' = Some reg ∨
     ∃ l, v = Some l ∧ ¬ l ∈ reg ∧ registry w' = Some (l :: reg)).
Proof.
  intros Hw Hc.
  assert (reachable supplier w') as Hw' by (by econstructor).
  pose proof (registry_inv_traversal _ (reachable_registry_inv _ supplier_fresh _ Hw)) as Hreg.
  pose proof (reachable_registry_inv _ supplier_fresh _ Hw') as Hinv'.
  pose proof (registry_inv_traversal _ Hinv') as Hreg'.
  destruct Hinv' as [_ Hnd' _ _].
  exists (reverse (constructed (trace w))). split; [done|].
  apply exec_effect in Hc.
  destruct Hc as [args l1 o1 Hst Hl1|args l1 b Hst Hs Hlk'|l1 o1 Hl1| |l1 o1 Hl1
                 |first l1 o1 Hl1| |l1 o1 Hl1]; simpl in *; auto.
  right. exists l1. rewrite constructed_app in Hreg', Hnd'. simpl in *.
  rewrite reverse_snoc in Hreg'. split; [done|]. split; [|done].
  apply NoDup_app in Hnd' as (_ & Hdisj & _).
  rewrite elem_of_reverse. intros Hin. apply (Hdisj _ Hin).
  by apply list_elem_of_singleton.
Qed.

(** X5.  No double acquire: what [acquire] hands to a caller that keeps
    to the contract is an object the caller neither holds nor has
    claimed. *)
Theorem acquire_not_held cl w args l w' :
  protocol supplier cl w → acquire supplier args w = Ret (Some l) w' →
  ¬ l ∈ held cl ∧ ¬ l ∈ claimed cl.
Proof.
  intros [ls [Hc Hheld Hlive Hfree Hdisj]]%(protocol_has_inv _ supplier_fresh) Hacq.
  apply (exec_effect supplier w (Acquire args)) in Hacq.
  inversion Hacq as [args' l' o Hst Hl|args' l' b Hst Hs Hlk| | | | | |]; subst.
  - apply Hfree. rewrite Hst in Hc. inversion Hc; subst. by left.
  - apply supplier_fresh in Hs.
    assert (¬ is_Some (heap w !! l)) as Hdead by (rewrite Hs; by intros []).
    rewrite Hlive in Hdead. tauto.
Qed.

(** X6.  Accounting: between the calls of a caller that keeps to the
    contract, every object ever constructed is in exactly one place --
    held, claimed or on the stack -- so the length of the registry is the
    number of held objects plus the number of claimed ones plus the length
    of the free-list. *)
Theorem registry_accounts_for_all cl w :
  protocol supplier cl w →
  ∃ reg ls,
    registry w = Some reg ∧ free_list w = Some ls ∧
    length reg = size (held cl) + size (claimed cl) + length ls ∧
    length reg = size (heap w).
Proof.
  intros Hp.
  destruct (protocol_has_inv _ supplier_fresh _ _ Hp)
    as [ls [Hc Hheld Hlive Hfree Hdisj]].
  pose proof (reachable_registry_inv _ supplier_fresh _
                (protocol_reachable _ _ Hp)) as Hinv.
  pose proof (registry_inv_traversal _ Hinv) as Hreg.
  destruct Hinv as [_ Hnd Hreglive _].
  exists (reverse (constructed (trace w))), ls.
  split; [done|]. split; [by apply chain_free_list|].
  rewrite length_reverse, <- (size_list_to_set (C := gset positive)) by done.
  split.
  - assert (list_to_set (constructed (trace w)) =@{gset positive}
            (held cl ∪ claimed cl) ∪ list_to_set ls) as ->.
    { apply set_eq. intros x.
      rewrite elem_of_list_to_set, Hreglive, Hlive.
      rewrite !elem_of_union, elem_of_list_to_set. tauto. }
    rewrite !size_union.
    + by rewrite size_list_to_set by (by eapply chain_NoDup).
    + intros x Hx Hx'. by apply (Hdisj x).
    + intros x Hx Hx'. apply elem_of_list_to_set, Hfree in Hx'.
      apply elem_of_union in Hx. tauto.
  - rewrite <- (size_dom (D := gset positive)). f_equal.
    apply set_eq. intros x.
    by rewrite elem_of_list_to_set, Hreglive, elem_of_dom.
Qed.

(** X7.  A caller that keeps to the contract never dereferences a bad
    pointer and never waits for the lock: [release] of a held object,
    [extract] and [restore] of claimed ones and [iterate] over registered
    ones return, and [acquire] returns unless the stack is empty and the
    supplier fails, in which case it halts. *)
Theorem contract_calls_return cl w :
  protocol supplier cl w →
  (∀ args,
     (∃ l w', acquire supplier args w = Ret (Some l) w') ∨
     (∃ w', acquire supplier args w = Halt w' ∧
        stack (state w) = None ∧ supplier args (heap w) = None)) ∧
  (∀ l, l ∈ held cl → ∃ w', release (Some l) w = Ret () w') ∧
  (∀ l, l ∈ claimed cl → ∃ q, extract (Some l) w = Ret q w) ∧
  (∀ first lst path,
     segment (size (heap w)) (heap w) first lst = Some path →
     (∀ l, l ∈ path → l ∈ claimed cl) →
     ∃ w', restore (Some first) (Some lst) w = Ret () w') ∧
  (∀ l, l ∈ constructed (trace w) → ∃ q, iterate (Some l) w = Ret q w).
Proof.
  intros Hp.
  destruct (protocol_has_inv _ supplier_fresh _ _ Hp)
    as [ls [Hc Hheld Hlive Hfree Hdisj]].
  destruct (reachable_registry_inv _ supplier_fresh _
              (protocol_reachable _ _ Hp)) as [_ _ Hreglive Hlk].
  repeat split.
  - intros args. destruct (stack (state w)) as [l|] eqn:Hst.
    + left. inversion Hc as [|l' o ls' Hl Hc']; subst.
      eexists _, _. by apply acquire_hit.
    + destruct (supplier args (heap w)) as [[l b]|] eqn:Hs.
      * left. eexists _, _. by apply acquire_miss.
      * right. eexists. split; [by apply acquire_fail|done].
  - intros l Hin. destruct (proj2 (Hlive l)) as [o Hl]; [tauto|].
    eexists. by apply release_live.
  - intros l Hin. destruct (proj2 (Hlive l)) as [o Hl]; [tauto|].
    eexists. by apply extract_live.
  - intros first lst path Hseg Hpath.
    destruct (proj2 (Hlive lst)) as [o Hl].
    { right; left. eapply Hpath, segment_last, Hseg. }
    eexists. by apply restore_live.
  - intros l Hin. apply Hreglive in Hin as [o Hl].
    eexists. by apply iterate_live.
Qed.

(** X8.  [acquire] on a stack that is not empty pops its top: the top is
    returned, the rest of the stack stays in order, the supplier is not
    asked, the lock is not taken, no other object is written and a
    traversal of the registry sees no difference. *)
Theorem acquire_pops_top args w l ls :
  free_list w = Some (l :: ls) →
  ∃ w', acquire supplier args w = Ret (Some l) w' ∧
    free_list w' = Some ls ∧
    trace w' = trace w ∧
    registry w' = registry w ∧
    (∀ l', l' ≠ l → heap w' !! l' = heap w !! l').
Proof.
  intros Hc%free_list_chain.
  pose proof (chain_NoDup _ _ _ _ Hc) as [Hnin _]%NoDup_cons.
  inversion Hc as [|l' o ls' Hl Hc' Hst]; subst.
  erewrite acquire_hit by done. eexists. split; [done|]. repeat split.
  - apply chain_free_list. simpl. by apply chain_insert_off.
  - by eapply registry_write.
  - intros l' Hne. simpl. by rewrite lookup_insert_ne.
Qed.

(** X9.  [extract(nullptr)] hands over the whole stack: walking from the
    pointer it returns with [extract(p)] until [nullptr] visits exactly
    the objects that were on the stack, top first, while the stack itself
    is empty. *)
Theorem extract_hands_over_stack w ls :
  free_list w = Some ls →
  ∃ p w1, extract None w = Ret p w1 ∧
    follow extract (size (heap w1)) p w1 = Some ls ∧
    free_list w1 = Some [].
Proof.
  intros Hc%free_list_chain. rewrite extract_null. eexists _, _.
  split; [done|]. split.
  - simpl. eapply follow_chain; [apply extract_live|done|].
    apply live_length; [by eapply chain_NoDup|].
    intros l. by eapply chain_live.
  - apply chain_free_list. constructor.
Qed.

(** X10.  [restore(first,last)] puts the chain from [first] to [last] on
    top of the stack, in chain order, above what the stack held. *)
Theorem restore_puts_chain_on_top w first lst o path ls :
  free_list w = Some ls →
  segment (size (heap w)) (heap w) first lst = Some path →
  heap w !! lst = Some o →
  (∀ l, l ∈ path → l ∉ ls) →
  ∃ w', restore (Some first) (Some lst) w = Ret () w' ∧
    free_list w' = Some (path ++ ls).
Proof.
  intros Hc%free_list_chain Hseg Hl Hdisj.
  rewrite (restore_live _ _ _ _ Hl). eexists. split; [done|].
  apply chain_free_list. simpl. by eapply segment_splice.
Qed.

Lemma chain_through field h p ls l o' ls' :
  chain field h p ls → l ∈ ls →
  chain field (<[l := o']> h) p ls' → l ∈ ls'.
Proof.
  intros Hc. revert ls'.
  induction Hc as [|x o ls0 Hx _ IH]; intros ls' Hin Hc'.
  - by apply elem_of_nil in Hin.
  - inversion Hc' as [|x' o1 ls1 Hx1 Hc1]; subst.
    destruct (decide (x = l)) as [->|Hne]; [by left|]. right.
    apply elem_of_cons in Hin as [->|Hin]; [done|].
    rewrite lookup_insert_ne in Hx1 by done.
    apply IH; [done|]. congruence.
Qed.

(** X11.  Why an object must not be released twice: [release] of an
    object that is already on the stack returns, but ties the free-list
    link into a cycle through that object -- a walk of the stack no longer
    ends, whatever the fuel. *)
Theorem release_twice_makes_cycle w l ls :
  free_list w = Some ls → l ∈ ls →
  ∃ w', release (Some l) w = Ret () w' ∧
    ∀ fuel, follow extract fuel (stack (state w')) w' = None.
Proof.
  intros Hc%free_list_chain Hin.
  destruct (chain_live _ _ _ _ _ Hc Hin) as [o Hl].
  rewrite (release_live _ _ _ Hl). eexists. split; [done|].
  intros fuel. simpl.
  destruct (follow extract fuel (Some l) _) as [ls'|] eqn:Hf; [|done].
  apply (follow_chain_inv next) in Hf;
    [|apply extract_live|apply extract_dead].
  pose proof (chain_NoDup _ _ _ _ Hf) as Hnd.
  simpl in Hf. inversion Hf as [|l' o1 ls1 Hl1 Hc1]; subst.
  rewrite lookup_insert_eq in Hl1. injection Hl1 as <-. simpl in Hc1.
  apply NoDup_cons in Hnd as [Hnin _]. destruct Hnin.
  exact (chain_through _ _ _ _ _ _ _ Hc Hin Hc1).
Qed.

End surface.

(** ** Further properties of the singleton gate *)

Section gate.

Context {Shared : Type}.
Variable handle_ensure_init : option (Shared → Shared).

Implicit Types (g : Gate Shared) (t : nat).


End gate.

(** ** The further properties on the pool of counters *)

Lemma acquire_never_null_witness :
  ∃ l o, Some 1%positive = Some l ∧
    heap (Demo.after 3 [Acquire 10]) !! l = Some o ∧ in_use o = true.
Proof.
  apply (acquire_never_null (Demo.supplier 3) 10 init).
  vm_compute. reflexivity.
Defined.

Lemma objects_never_destroyed_witness :
  ∃ o', heap (Demo.after 3 [Acquire 10; Release (Some 1%positive); Acquire 20;
                            Acquire 30; Extract None]) !! 1%positive = Some o' ∧
    body o' = 10 ∧ list_next o' = None.
Proof.
  apply (objects_never_destroyed (Demo.supplier 3) (demo_supplier_fresh 3)
           [Release (Some 1%positive); Acquire 20; Acquire 30; Extract None]
           (Demo.after 3 [Acquire 10])
           [None; Some 1%positive; Some 2%positive; None] _ 1%positive
           (mkPooled None None true 10)).
  - vm_compute. reflexivity.
  - vm_compute. reflexivity.
Defined.

Lemma lock_only_for_registration_witness :
  let w := Demo.after 3 [Acquire 10; Release (Some 1%positive); Acquire 20;
                         Acquire 30] in
  reachable (Demo.supplier 3) w ∧
  lock (state w) = false ∧ ∃ xs, trace w = constructions xs.
Proof.
  intros w. split; [apply after_reachable|].
  apply (lock_only_for_registration (Demo.supplier 3)), after_reachable.
Defined.

Lemma registry_grows_at_head_witness :
  let w := Demo.after 3 [Acquire 10] in
  let w' := Demo.after 3 [Acquire 10; Acquire 20] in
  ∃ reg, registry w = Some reg ∧
    (registry w' = Some reg ∨
     ∃ l, Some 2%positive = Some l ∧ ¬ l ∈ reg ∧ registry w' = Some (l :: reg)).
Proof.
  intros w w'.
  apply (registry_grows_at_head (Demo.supplier 3) (demo_supplier_fresh 3)
           w (Acquire 20)).
  - apply after_reachable.
  - vm_compute. reflexivity.
Defined.

Lemma acquire_not_held_witness :
  let s := Demo.played 3 [Acquire 10; Acquire 20; Release (Some 1%positive)] in
  ¬ 1%positive ∈ held s.1 ∧ ¬ 1%positive ∈ claimed s.1.
Proof.
  intros s.
  apply (acquire_not_held (Demo.supplier 3) (demo_supplier_fresh 3)
           s.1 s.2 30 1%positive
           (Demo.played 3 [Acquire 10; Acquire 20; Release (Some 1%positive);
                           Acquire 30]).2).
  - apply played_protocol.
  - vm_compute. reflexivity.
Defined.

Lemma registry_accounts_for_all_witness :
  let s := Demo.played 3 [Acquire 10; Acquire 20; Acquire 30;
                          Release (Some 1%positive); Extract None;
                          Release (Some 2%positive)] in
  ∃ reg ls,
    registry s.2 = Some reg ∧ free_list s.2 = Some ls ∧
    length reg = size (held s.1) + size (claimed s.1) + length ls ∧
    length reg = size (heap s.2).
Proof.
  intros s.
  apply (registry_accounts_for_all (Demo.supplier 3) (demo_supplier_fresh 3)).
  apply played_protocol.
Defined.

Lemma contract_calls_return_witness :
  let s := Demo.played 3 [Acquire 10; Acquire 20; Acquire 30;
                          Release (Some 1%positive); Extract None;
                          Release (Some 2%positive)] in
  (∃ w', release (Some 3%positive) s.2 = Ret () w') ∧
  (∃ q, extract (Some 1%positive) s.2 = Ret q s.2).
Proof.
  intros s.
  destruct (contract_calls_return (Demo.supplier 3) (demo_supplier_fresh 3)
              s.1 s.2 (played_protocol _ _)) as (_ & Hrel & Hext & _).
  split.
  - apply Hrel. apply (bool_decide_unpack _). vm_compute. exact I.
  - apply Hext. apply (bool_decide_unpack _). vm_compute. exact I.
Defined.

Lemma acquire_pops_top_witness :
  let w := Demo.after 3 [Acquire 10; Acquire 20; Release (Some 1%positive);
                         Release (Some 2%positive)] in
  ∃ w', acquire (Demo.supplier 3) 30 w = Ret (Some 2%positive) w' ∧
    free_list w' = Some [1%positive] ∧ trace w' = trace w.
Proof.
  intros w.
  destruct (acquire_pops_top (Demo.supplier 3) 30 w 2%positive [1%positive])
    as (w' & Hacq & Hfl & Htr & _).
  - vm_compute. reflexivity.
  - exists w'. auto.
Defined.

Lemma extract_hands_over_stack_witness :
  let w := Demo.after 3 [Acquire 10; Acquire 20; Release (Some 1%positive);
                         Release (Some 2%positive)] in
  ∃ p w1, extract None w = Ret p w1 ∧
    follow extract (size (heap w1)) p w1 = Some [2%positive; 1%positive] ∧
    free_list w1 = Some [].
Proof.
  intros w. apply (extract_hands_over_stack w). vm_compute. reflexivity.
Defined.

Lemma restore_puts_chain_on_top_witness :
  let w := (Demo.played 3 [Acquire 10; Acquire 20; Acquire 30;
                           Release (Some 1%positive); Release (Some 2%positive);
                           Extract None; Release (Some 3%positive)]).2 in
  ∃ w', restore (Some 2%positive) (Some 1%positive) w = Ret () w' ∧
    free_list w' = Some [2%positive; 1%positive; 3%positive].
Proof.
  intros w.
  apply (restore_puts_chain_on_top w 2%positive 1%positive
           (mkPooled None None false 10) [2%positive; 1%positive] [3%positive]).
  - vm_compute. reflexivity.
  - vm_compute. reflexivity.
  - vm_compute. reflexivity.
  - intros l Hl Hl'. apply list_elem_of_singleton in Hl'. subst.
    apply elem_of_cons in Hl as [?|Hl]; [done|].
    by apply list_elem_of_singleton in Hl.
Defined.

Lemma release_twice_makes_cycle_witness :
  let w := Demo.after 3 [Acquire 10; Release (Some 1%positive)] in
  ∃ w', release (Some 1%positive) w = Ret () w' ∧
    ∀ fuel, follow extract fuel (stack (state w')) w' = None.
Proof.
  intros w. apply (release_twice_makes_cycle w 1%positive [1%positive]).
  - vm_compute. reflexivity.
  - by apply list_elem_of_singleton.
Defined.

